(** * PBD::EventLoop (libs/pbd/event_loop.cc)

    A shallow embedding of the static state and the static member functions
    of [PBD::EventLoop]: the per-thread event-loop slot, request
    invalidation, the request-buffer supplier list and the pre-registration
    of request buffers.

    Conventions.
    - A C++ pointer is an address in [N]; [NULL] is address 0.
    - The process state is passed explicitly.  Heap objects live in finite
      maps from addresses; dereferencing an address that is not allocated is
      undefined behaviour and is modelled by [None].
    - Lock acquisitions, lock releases, [delete] and the writes to the two
      shared containers are recorded, in program order, in a trace.
    - A request-buffer factory is foreign code.  It is a function of the
      requested size and of the collaborators' state [World], about which
      nothing is assumed. *)

From Stdlib Require Import Ascii.
From stdpp Require Import gmap strings list fin_maps.

Local Open Scope N_scope.

(** ** Pointers and scalar types *)

Definition ptr : Type := N.
Definition NULL : ptr := 0.
Definition pthread_t : Type := N.
Definition uint32_t : Type := N.

(** ** Request objects and invalidation records *)

Record BaseRequestObject : Type := mkBaseRequestObject {
  valid : bool;
  invalidation : ptr            (* InvalidationRecord*, may be NULL *)
}.

Record InvalidationRecord : Type := mkInvalidationRecord {
  requests : list ptr;          (* std::list<BaseRequestObject*> *)
  event_loop : ptr              (* EventLoop*, may be NULL *)
}.

Definition set_valid (b : bool) (r : BaseRequestObject) : BaseRequestObject :=
  {| valid := b; invalidation := invalidation r |}.

Definition set_invalidation (p : ptr) (r : BaseRequestObject) : BaseRequestObject :=
  {| valid := valid r; invalidation := p |}.

(** ** Buffer mappings *)

Record ThreadBufferMapping : Type := mkThreadBufferMapping {
  emitting_thread : pthread_t;
  target_thread_name : string;
  request_buffer : ptr          (* void* *)
}.

#[global] Instance ThreadBufferMapping_eq_dec : EqDecision ThreadBufferMapping.
Proof. solve_decision. Defined.

(** ** Observable events *)

Inductive Event : Type :=
  | MutexLock (loop : ptr)      (* Mutex::Lock on loop->slot_invalidation_mutex() *)
  | MutexUnlock (loop : ptr)
  | InvalidateRequest (req : ptr) (* req->valid = false; req->invalidation = 0 *)
  | DeleteRecord (ir : ptr)     (* delete ir *)
  | ReaderLock                  (* RWLock::ReaderLock on thread_buffer_requests_lock *)
  | ReaderUnlock
  | WriterLock                  (* RWLock::WriterLock on thread_buffer_requests_lock *)
  | WriterUnlock
  | StoreMapping (key : string) (* thread_buffer_requests[key] = ... *)
  | PushSupplier (name : string). (* request_buffer_suppliers.push_back (...) *)

#[global] Instance Event_eq_dec : EqDecision Event.
Proof. solve_decision. Defined.

(** [a] occurs strictly earlier than [b] in the trace [tr]. *)
Definition occurs_before (a b : Event) (tr : list Event) : Prop :=
  ∃ i j : nat, tr !! i = Some a ∧ tr !! j = Some b ∧ (i < j)%nat.

(** How many times the event [e] occurs in [tr]. *)
Definition occurrences (e : Event) (tr : list Event) : nat :=
  length (filter (λ x, x = e) tr).

(** State of [thread_buffer_requests_lock] as seen by the running thread. *)
Inductive LockMode : Type := Unlocked | ReadLocked | WriteLocked.

(** Does every write to the shared containers recorded in [tr] happen while
    the writer lock is held?  [mode] is the lock mode at the start of [tr]. *)
Fixpoint writes_hold_writer_lock (mode : LockMode) (tr : list Event) : bool :=
  match tr with
  | [] => true
  | ReaderLock :: tr' => writes_hold_writer_lock ReadLocked tr'
  | WriterLock :: tr' => writes_hold_writer_lock WriteLocked tr'
  | ReaderUnlock :: tr' | WriterUnlock :: tr' => writes_hold_writer_lock Unlocked tr'
  | StoreMapping _ :: tr' | PushSupplier _ :: tr' =>
      match mode with
      | WriteLocked => writes_hold_writer_lock mode tr'
      | _ => false
      end
  | _ :: tr' => writes_hold_writer_lock mode tr'
  end.

Section EventLoop.

(** State of the collaborators that the request-buffer factories act on. *)
Context {World : Type}.

(** A pointer to a function from [uint32_t] to [void*]; [None] is the null
    function pointer. *)
Definition Factory : Type := uint32_t → World → ptr * World.

Record RequestBufferSupplier : Type := mkRequestBufferSupplier {
  name : string;
  factory : option Factory
}.

(** ** Process state

    The three static members of [EventLoop], the heap objects reached by
    [invalidate_request], the trace and the collaborators' state.  The
    container types are declared in pbd/event_loop.h: the suppliers are a
    sequence ([push_back], iteration), the buffer requests an associative
    container from [std::string] keys ([operator[]], [x->second]). *)
Record State : Type := mkState {
  thread_event_loop : gmap pthread_t ptr;
  thread_buffer_requests : gmap string ThreadBufferMapping;
  request_buffer_suppliers : list RequestBufferSupplier;
  request_objects : gmap ptr BaseRequestObject;
  invalidation_records : gmap ptr InvalidationRecord;
  trace : list Event;
  world : World
}.

Definition emit (e : Event) (s : State) : State :=
  {| thread_event_loop := thread_event_loop s;
     thread_buffer_requests := thread_buffer_requests s;
     request_buffer_suppliers := request_buffer_suppliers s;
     request_objects := request_objects s;
     invalidation_records := invalidation_records s;
     trace := trace s ++ [e];
     world := world s |}.

Definition with_thread_event_loop (m : gmap pthread_t ptr) (s : State) : State :=
  {| thread_event_loop := m;
     thread_buffer_requests := thread_buffer_requests s;
     request_buffer_suppliers := request_buffer_suppliers s;
     request_objects := request_objects s;
     invalidation_records := invalidation_records s;
     trace := trace s;
     world := world s |}.

Definition with_thread_buffer_requests (m : gmap string ThreadBufferMapping)
    (s : State) : State :=
  {| thread_event_loop := thread_event_loop s;
     thread_buffer_requests := m;
     request_buffer_suppliers := request_buffer_suppliers s;
     request_objects := request_objects s;
     invalidation_records := invalidation_records s;
     trace := trace s;
     world := world s |}.

Definition with_request_buffer_suppliers (l : list RequestBufferSupplier)
    (s : State) : State :=
  {| thread_event_loop := thread_event_loop s;
     thread_buffer_requests := thread_buffer_requests s;
     request_buffer_suppliers := l;
     request_objects := request_objects s;
     invalidation_records := invalidation_records s;
     trace := trace s;
     world := world s |}.

Definition with_request_objects (h : gmap ptr BaseRequestObject) (s : State) : State :=
  {| thread_event_loop := thread_event_loop s;
     thread_buffer_requests := thread_buffer_requests s;
     request_buffer_suppliers := request_buffer_suppliers s;
     request_objects := h;
     invalidation_records := invalidation_records s;
     trace := trace s;
     world := world s |}.

Definition with_invalidation_records (h : gmap ptr InvalidationRecord) (s : State) : State :=
  {| thread_event_loop := thread_event_loop s;
     thread_buffer_requests := thread_buffer_requests s;
     request_buffer_suppliers := request_buffer_suppliers s;
     request_objects := request_objects s;
     invalidation_records := h;
     trace := trace s;
     world := world s |}.

Definition with_world (w : World) (s : State) : State :=
  {| thread_event_loop := thread_event_loop s;
     thread_buffer_requests := thread_buffer_requests s;
     request_buffer_suppliers := request_buffer_suppliers s;
     request_objects := request_objects s;
     invalidation_records := invalidation_records s;
     trace := trace s;
     world := w |}.

(** The events appended to the trace between [s] and a later state [s']. *)
Definition new_events (s s' : State) : list Event :=
  drop (length (trace s)) (trace s').

(** The state at program start: empty containers, nothing allocated. *)
Definition initial_state (w : World) : State :=
  {| thread_event_loop := ∅;
     thread_buffer_requests := ∅;
     request_buffer_suppliers := [];
     request_objects := ∅;
     invalidation_records := ∅;
     trace := [];
     world := w |}.

(** ** The per-thread event loop slot *)

(** [do_not_delete_the_loop_pointer], with its empty body: the destroy
    notifier handed to [Glib::Threads::Private<EventLoop>]. *)
Definition do_not_delete_the_loop_pointer (p : ptr) (s : State) : State := s.

(** [thread_event_loop.get ()] in the thread [self]: the slot's value, NULL
    when the thread never stored one. *)
Definition get_event_loop_for_thread (self : pthread_t) (s : State) : ptr :=
  default NULL (thread_event_loop s !! self).

(** [thread_event_loop.set (loop)] in the thread [self]: the slot is
    overwritten; [Private::set] does not run the destroy notifier. *)
Definition set_event_loop_for_thread (self : pthread_t) (loop : ptr) (s : State) : State :=
  with_thread_event_loop (<[self := loop]> (thread_event_loop s)) s.

(** ** Invalidation *)

(** The [for] loop over [ir->requests]: each request in turn has [valid]
    set to false and [invalidation] set to 0. *)
Fixpoint invalidate_requests (l : list ptr) (s : State) : option State :=
  match l with
  | [] => Some s
  | i :: l' =>
      match request_objects s !! i with
      | None => None
      | Some r =>
          invalidate_requests l'
            (emit (InvalidateRequest i)
               (with_request_objects
                  (<[i := set_invalidation NULL (set_valid false r)]> (request_objects s)) s))
      end
  end.

(** [EventLoop::invalidate_request (data)].  The scoped mutex lock [lm] is
    constructed first inside the [if] block and destroyed when the block is
    left, after [delete ir].  Event-loop objects are not part of the state:
    a non-null [event_loop] is taken to point to a live [EventLoop], so
    reaching its mutex through [ir->event_loop] is not checked here, and
    [None] covers the record and the listed requests only. *)
Definition invalidate_request (data : ptr) (s : State) : option (ptr * State) :=
  ir ← invalidation_records s !! data;
  if decide (event_loop ir ≠ NULL) then
    let s1 := emit (MutexLock (event_loop ir)) s in
    s2 ← invalidate_requests (requests ir) s1;
    let s3 := emit (DeleteRecord data)
                (with_invalidation_records (delete data (invalidation_records s2)) s2) in
    let s4 := emit (MutexUnlock (event_loop ir)) s3 in
    Some (NULL, s4)
  else
    Some (NULL, s).

(** ** Request-buffer suppliers and pre-registration *)

(** [EventLoop::get_request_buffers_for_target_thread]: the loop body. *)
Definition collect_mapping (target_thread : string)
    (ret : list ThreadBufferMapping) (x : string * ThreadBufferMapping)
    : list ThreadBufferMapping :=
  if decide (target_thread_name x.2 = target_thread) then ret ++ [x.2] else ret.

(** [EventLoop::get_request_buffers_for_target_thread (target_thread)].
    The entries are visited in the container's iteration order, which
    [map_to_list] stands for. *)
Definition get_request_buffers_for_target_thread (target_thread : string) (s : State)
    : list ThreadBufferMapping * State :=
  let s1 := emit WriterLock s in
  let ret := foldl (collect_mapping target_thread) []
               (map_to_list (thread_buffer_requests s1)) in
  (ret, emit WriterUnlock s1).

(** [EventLoop::register_request_buffer_factory (target_thread_name, factory)]. *)
Definition register_request_buffer_factory (target_thread_name : string)
    (fac : option Factory) (s : State) : State :=
  let trs := {| name := target_thread_name; factory := fac |} in
  let s1 := emit WriterLock s in
  let s2 := emit (PushSupplier (name trs))
              (with_request_buffer_suppliers (request_buffer_suppliers s1 ++ [trs]) s1) in
  emit WriterUnlock s2.

(** The composite key: [key = emitting_thread_name; key += '/';
    key += target_thread_name]. *)
Definition make_key (emitting_thread_name target : string) : string :=
  (emitting_thread_name +:+ "/") +:+ target.

(** The local [ThreadBufferMapping mapping;] before any member is assigned.
    Each iteration that reads it assigns all three members first. *)
Definition fresh_mapping : ThreadBufferMapping :=
  {| emitting_thread := 0; target_thread_name := ""; request_buffer := NULL |}.

(** One iteration of the [for] loop of [pre_register] over the suppliers;
    the local [mapping] is carried from one iteration to the next. *)
Definition pre_register_body (emitting_thread_name : string) (num_requests : uint32_t)
    (self : pthread_t) (st : ThreadBufferMapping * State) (trs : RequestBufferSupplier)
    : ThreadBufferMapping * State :=
  let '(mapping, s) := st in
  match factory trs with
  | None => (mapping, s)                                   (* continue *)
  | Some fac =>
      if decide (emitting_thread_name = name trs) then (mapping, s)   (* continue *)
      else
        let mapping1 := {| emitting_thread := self;
                           target_thread_name := target_thread_name mapping;
                           request_buffer := request_buffer mapping |} in
        let mapping2 := {| emitting_thread := emitting_thread mapping1;
                           target_thread_name := name trs;
                           request_buffer := request_buffer mapping1 |} in
        let '(buf, w) := fac num_requests (world s) in
        let mapping3 := {| emitting_thread := emitting_thread mapping2;
                           target_thread_name := target_thread_name mapping2;
                           request_buffer := buf |} in
        let key := make_key emitting_thread_name (target_thread_name mapping3) in
        (mapping3,
         emit (StoreMapping key)
           (with_thread_buffer_requests (<[key := mapping3]> (thread_buffer_requests s))
              (with_world w s)))
  end.

(** [EventLoop::pre_register (emitting_thread_name, num_requests)], called
    in the thread [self] (the value of [pthread_self ()]). *)
Definition pre_register (emitting_thread_name : string) (num_requests : uint32_t)
    (self : pthread_t) (s : State) : State :=
  let mapping := fresh_mapping in
  let s1 := emit ReaderLock s in
  let '(_, s2) := foldl (pre_register_body emitting_thread_name num_requests self)
                    (mapping, s1) (request_buffer_suppliers s1) in
  emit ReaderUnlock s2.

(** ** Auxiliary notions used to state and prove the properties *)

(** The supplier passes both tests at the head of the loop body: it has a
    factory, and its name is not the emitter's. *)
Definition wants_buffer_from (emitting_thread_name : string)
    (trs : RequestBufferSupplier) : Prop :=
  is_Some (factory trs) ∧ emitting_thread_name ≠ name trs.

#[global] Instance wants_buffer_from_dec e trs : Decision (wants_buffer_from e trs).
Proof. unfold wants_buffer_from. apply _. Defined.

(** The stores one run of the loop performs, in order, and the
    collaborators' state after the factory calls. *)
Fixpoint pre_register_writes (emitting_thread_name : string) (num_requests : uint32_t)
    (self : pthread_t) (l : list RequestBufferSupplier) (w : World)
    : list (string * ThreadBufferMapping) * World :=
  match l with
  | [] => ([], w)
  | trs :: l' =>
      match factory trs with
      | None => pre_register_writes emitting_thread_name num_requests self l' w
      | Some fac =>
          if decide (emitting_thread_name = name trs)
          then pre_register_writes emitting_thread_name num_requests self l' w
          else
            let r := fac num_requests w in
            let ws := pre_register_writes emitting_thread_name num_requests self l' r.2 in
            ((make_key emitting_thread_name (name trs),
              mkThreadBufferMapping self (name trs) r.1) :: ws.1, ws.2)
      end
  end.

(** Stores applied to a table, first to last. *)
Definition apply_writes (tb : gmap string ThreadBufferMapping)
    (ws : list (string * ThreadBufferMapping)) : gmap string ThreadBufferMapping :=
  foldl (λ tb kv, <[kv.1 := kv.2]> tb) tb ws.

(** Every entry sits under a key made of some emitter's name and the
    entry's own target name, as the entries stored by [pre_register] do. *)
Definition keyed_by_emitter (tb : gmap string ThreadBufferMapping) : Prop :=
  ∀ k m, tb !! k = Some m → ∃ e, k = make_key e (target_thread_name m).

(** The entries of the table whose target is [role]. *)
Definition entries_for (role : string) (tb : gmap string ThreadBufferMapping)
    : list (string * ThreadBufferMapping) :=
  filter (λ kv, target_thread_name kv.2 = role) (map_to_list tb).

End EventLoop.

Arguments RequestBufferSupplier : clear implicits.
Arguments State : clear implicits.

(** ** Notions used by the further properties *)

Section Notions.

Context {World : Type}.

(** No request object holds a back-reference to a record that is not
    allocated. *)
Definition no_dangling_invalidation (s : State World) : Prop :=
  ∀ i r, request_objects s !! i = Some r → invalidation r ≠ NULL →
         is_Some (invalidation_records s !! invalidation r).

(** The record [ir] at [data] lists every request whose back-reference is
    [data]. *)
Definition lists_its_requests (data : ptr) (ir : InvalidationRecord)
    (s : State World) : Prop :=
  ∀ i r, request_objects s !! i = Some r → invalidation r = data → i ∈ requests ir.

(** One completed call of a static member function of [EventLoop]. *)
Inductive call : State World → State World → Prop :=
  | call_set self loop s :
      call s (set_event_loop_for_thread self loop s)
  | call_invalidate data s r s' :
      invalidate_request data s = Some (r, s') → call s s'
  | call_get_buffers role s :
      call s (get_request_buffers_for_target_thread role s).2
  | call_register nm fac s :
      call s (register_request_buffer_factory nm fac s)
  | call_pre_register e n self s :
      call s (pre_register e n self s).

(** Every entry of the table was stored for a registered supplier that has
    a factory, by an emitter of another name, under the key of the two. *)
Definition mappings_target_suppliers (s : State World) : Prop :=
  ∀ k m, thread_buffer_requests s !! k = Some m →
    ∃ e trs, trs ∈ request_buffer_suppliers s ∧ is_Some (factory trs)
           ∧ name trs = target_thread_name m ∧ e ≠ name trs
           ∧ k = make_key e (name trs).

(** The collaborators' state after calling, first to last, the factory of
    each supplier of [l] that has one. *)
Definition call_factories (num_requests : uint32_t)
    (l : list (RequestBufferSupplier World)) (w : World) : World :=
  foldl (λ w trs, from_option (λ fac : Factory, (fac num_requests w).2) w (factory trs)) w l.

End Notions.

(** Does the character [c] occur in [s]? *)
Fixpoint contains_char (c : Ascii.ascii) (s : string) : bool :=
  match s with
  | EmptyString => false
  | String a s' => if decide (a = c) then true else contains_char c s'
  end.

(** ** Example states *)

(** Three invalidation records: the one at address 1 belongs to the event
    loop at address 7 and lists the requests at 10 and 11; the one at
    address 2 has no event loop and lists the request at 12; the one at
    address 3 belongs to the event loop at 7 and lists no request.  The
    request at 13 is attached to no record. *)
Definition ex_invalidation_state : State unit :=
  {| thread_event_loop := ∅;
     thread_buffer_requests := ∅;
     request_buffer_suppliers := [];
     request_objects :=
       <[10 := mkBaseRequestObject true 1]>
         (<[11 := mkBaseRequestObject true 1]>
            (<[12 := mkBaseRequestObject true 2]>
               (<[13 := mkBaseRequestObject true NULL]> ∅)));
     invalidation_records :=
       <[1 := mkInvalidationRecord [10; 11] 7]>
         (<[2 := mkInvalidationRecord [12] NULL]>
            (<[3 := mkInvalidationRecord [] 7]> ∅));
     trace := [];
     world := tt |}.

(** A factory that hands out the buffer addresses [base], [base + 1], ...;
    the collaborators' state counts the buffers handed out so far. *)
Definition ex_factory (base : ptr) : @Factory N := λ _ w, (base + w, w + 1).

(** Suppliers registered for "ui" and "workerA" with factories and for
    "audio" without one, nothing pre-registered yet. *)
Definition ex_registry_state : State N :=
  register_request_buffer_factory "audio" None
    (register_request_buffer_factory "workerA" (Some (ex_factory 2000))
       (register_request_buffer_factory "ui" (Some (ex_factory 1000))
          (initial_state 0))).


(** Two records with owning event loops that share a request: the record
    at address 1 (event loop 7) lists the requests at 10 and 11, the record
    at address 4 (event loop 8) lists the requests at 11 and 12. *)
Definition ex_shared_request_state : State unit :=
  {| thread_event_loop := ∅;
     thread_buffer_requests := ∅;
     request_buffer_suppliers := [];
     request_objects :=
       <[10 := mkBaseRequestObject true 1]>
         (<[11 := mkBaseRequestObject true 1]>
            (<[12 := mkBaseRequestObject true 4]>
               (<[13 := mkBaseRequestObject true NULL]> ∅)));
     invalidation_records :=
       <[1 := mkInvalidationRecord [10; 11] 7]>
         (<[4 := mkInvalidationRecord [11; 12] 8]> ∅);
     trace := [];
     world := tt |}.

(** Suppliers named "c" and "b/c", both with factories, after the emitter
    "a/b" has pre-registered from thread 1. *)
Definition ex_slash_state : State N :=
  pre_register "a/b" 8 1
    (register_request_buffer_factory "b/c" (Some (ex_factory 3000))
       (register_request_buffer_factory "c" (Some (ex_factory 4000))
          (initial_state 0))).


(** * Properties *)

Section Invalidation.

Context {World : Type}.
Implicit Types (s : State World) (l : list ptr) (ir : InvalidationRecord).

(** The request object left behind by one iteration of the loop. *)
Lemma invalidated_fields (r : BaseRequestObject) :
  set_invalidation NULL (set_valid false r) = mkBaseRequestObject false NULL.
Proof. reflexivity. Qed.

(** The loop over the pending requests, when every one of them is allocated. *)
Lemma invalidate_requests_spec l : ∀ s,
  Forall (λ i, is_Some (request_objects s !! i)) l →
  ∃ h, invalidate_requests l s
       = Some (mkState (thread_event_loop s) (thread_buffer_requests s)
                 (request_buffer_suppliers s) h (invalidation_records s)
                 (trace s ++ (InvalidateRequest <$> l)) (world s))
     ∧ (∀ i, i ∈ l → h !! i = Some (mkBaseRequestObject false NULL))
     ∧ (∀ i, i ∉ l → h !! i = request_objects s !! i).
Proof.
  induction l as [|i l IH]; intros s Hall.
  - exists (request_objects s). simpl. rewrite app_nil_r.
    split; [by destruct s|]. split; [|done].
    intros i Hi. by apply elem_of_nil in Hi.
  - apply Forall_cons in Hall as [[r Hr] Hall]. simpl. rewrite Hr.
    set (s1 := emit _ _).
    destruct (IH s1) as (h & Hrun & Hin & Hout).
    { eapply Forall_impl; [exact Hall|]. intros j [rj Hj]. simpl.
      destruct (decide (i = j)) as [->|Hne].
      - rewrite lookup_insert_eq. eauto.
      - rewrite lookup_insert_ne by done. eauto. }
    exists h. split; [|split].
    + rewrite Hrun. simpl. by rewrite <- app_assoc.
    + intros j Hj. destruct (decide (j ∈ l)) as [Hjl|Hjl]; [by apply Hin|].
      apply elem_of_cons in Hj as [->|Hj]; [|done].
      rewrite (Hout i Hjl). simpl. by rewrite lookup_insert_eq.
    + intros j Hj. apply not_elem_of_cons in Hj as [Hne Hj].
      rewrite (Hout j Hj). simpl. by rewrite lookup_insert_ne.
Qed.

(** The whole routine on a record with an owning event loop. *)
Lemma invalidate_request_live s data ir :
  invalidation_records s !! data = Some ir →
  event_loop ir ≠ NULL →
  Forall (λ i, is_Some (request_objects s !! i)) (requests ir) →
  ∃ h, invalidate_request data s
       = Some (NULL,
               mkState (thread_event_loop s) (thread_buffer_requests s)
                 (request_buffer_suppliers s) h (delete data (invalidation_records s))
                 (trace s ++ MutexLock (event_loop ir)
                             :: (InvalidateRequest <$> requests ir)
                             ++ [DeleteRecord data; MutexUnlock (event_loop ir)])
                 (world s))
     ∧ (∀ i, i ∈ requests ir → h !! i = Some (mkBaseRequestObject false NULL))
     ∧ (∀ i, i ∉ requests ir → h !! i = request_objects s !! i).
Proof.
  intros Hir Hloop Hall. unfold invalidate_request. rewrite Hir. simpl.
  rewrite decide_True by done.
  destruct (invalidate_requests_spec (requests ir) (emit (MutexLock (event_loop ir)) s))
    as (h & Hrun & Hin & Hout); [done|].
  exists h. rewrite Hrun. simpl. split; [|done].
  unfold emit. simpl. do 3 f_equal.
  by rewrite <- !app_assoc.
Qed.

(** The routine on a record without an owning event loop. *)
Lemma invalidate_request_detached s data ir :
  invalidation_records s !! data = Some ir →
  event_loop ir = NULL →
  invalidate_request data s = Some (NULL, s).
Proof.
  intros Hir Hloop. unfold invalidate_request. rewrite Hir. simpl.
  by rewrite decide_False by (intros H; by apply H).
Qed.

Lemma new_events_app s s' (tr : list Event) :
  trace s' = trace s ++ tr → new_events s s' = tr.
Proof. intros H. unfold new_events. rewrite H. by rewrite drop_app_length. Qed.

Lemma occurrences_app e (t1 t2 : list Event) :
  occurrences e (t1 ++ t2) = (occurrences e t1 + occurrences e t2)%nat.
Proof. unfold occurrences. by rewrite filter_app, length_app. Qed.

Lemma occurrences_cons e x (t : list Event) :
  occurrences e (x :: t) = ((if decide (x = e) then 1 else 0) + occurrences e t)%nat.
Proof. unfold occurrences. rewrite filter_cons. by case_decide. Qed.

Lemma occurrences_invalidations d l :
  occurrences (DeleteRecord d) (InvalidateRequest <$> l) = 0%nat.
Proof.
  unfold occurrences. induction l as [|i l IH]; [done|].
  simpl. rewrite filter_cons_False by done. exact IH.
Qed.

Lemma occurs_before_app (a b : Event) (t1 t2 : list Event) :
  a ∈ t1 → b ∈ t2 → occurs_before a b (t1 ++ t2).
Proof.
  intros [i Hi]%list_elem_of_lookup [j Hj]%list_elem_of_lookup.
  exists i, (length t1 + j)%nat. split; [by apply lookup_app_l_Some|].
  split; [by rewrite lookup_app_r, Nat.add_comm, Nat.add_sub by lia|].
  apply lookup_lt_Some in Hi. lia.
Qed.

Lemma trace_split_last (x d u : Event) (t : list Event) :
  x :: t ++ [d; u] = (x :: t ++ [d]) ++ [u].
Proof. simpl. by rewrite <- app_assoc. Qed.

(** Positions of the delete and of the unlock in the events of one call. *)
Lemma invalidation_trace_delete_position el d d' l (k : nat) :
  (MutexLock el :: (InvalidateRequest <$> l) ++ [DeleteRecord d; MutexUnlock el]) !! k
    = Some (DeleteRecord d') →
  k = S (length l).
Proof.
  destruct k as [|k]; simpl; [discriminate|].
  intros [H|[Hle H]]%lookup_app_Some.
  - rewrite list_lookup_fmap in H. by destruct (l !! k).
  - rewrite length_fmap in *.
    destruct (k - length l)%nat as [|[|n]] eqn:E; simplify_eq/=; lia.
Qed.

Lemma invalidation_trace_unlock_position el el' d l (k : nat) :
  (MutexLock el :: (InvalidateRequest <$> l) ++ [DeleteRecord d; MutexUnlock el]) !! k
    = Some (MutexUnlock el') →
  k = S (S (length l)).
Proof.
  destruct k as [|k]; simpl; [discriminate|].
  intros [H|[Hle H]]%lookup_app_Some.
  - rewrite list_lookup_fmap in H. by destruct (l !! k).
  - rewrite length_fmap in *.
    destruct (k - length l)%nat as [|[|n]] eqn:E; simplify_eq/=; lia.
Qed.

(** C1. For a record whose owning event loop is set (and whose pointers are
    all live), [invalidate_request] returns 0 after setting [valid = false]
    and [invalidation = 0] on every request of the record's list, whatever
    the length of the list; every other request object is left as it was;
    the record is removed from the heap, and it is deleted exactly once,
    after every request has been flipped; no other record is deleted. *)
Theorem invalidate_request_flips_exactly_pending s data ir :
  invalidation_records s !! data = Some ir →
  event_loop ir ≠ NULL →
  Forall (λ i, is_Some (request_objects s !! i)) (requests ir) →
  ∃ s', invalidate_request data s = Some (NULL, s')
      ∧ (∀ i, i ∈ requests ir →
           ∃ r, request_objects s' !! i = Some r ∧ valid r = false ∧ invalidation r = NULL)
      ∧ (∀ i, i ∉ requests ir → request_objects s' !! i = request_objects s !! i)
      ∧ (∀ i, InvalidateRequest i ∈ new_events s s' ↔ i ∈ requests ir)
      ∧ invalidation_records s' = delete data (invalidation_records s)
      ∧ occurrences (DeleteRecord data) (new_events s s') = 1%nat
      ∧ (∀ d, d ≠ data → occurrences (DeleteRecord d) (new_events s s') = 0%nat)
      ∧ (∀ i, i ∈ requests ir →
           occurs_before (InvalidateRequest i) (DeleteRecord data) (new_events s s')).
Proof.
  intros Hir Hloop Hall.
  destruct (invalidate_request_live s data ir Hir Hloop Hall) as (h & Hrun & Hin & Hout).
  eexists. split; [exact Hrun|].
  erewrite new_events_app by reflexivity. simpl.
  split; [|split; [|split; [|split; [|split; [|split]]]]].
  - intros i Hi. eexists. split; [by apply Hin|done].
  - exact Hout.
  - intros i. rewrite elem_of_cons, elem_of_app, list_elem_of_fmap, !elem_of_cons.
    split.
    + intros [?|[(j & ? & ?)|[?|[?|?%elem_of_nil]]]]; by simplify_eq.
    + intros Hi. right. left. by exists i.
  - done.
  - rewrite occurrences_cons, occurrences_app, occurrences_invalidations.
    rewrite !occurrences_cons. by repeat case_decide.
  - intros d Hd.
    rewrite occurrences_cons, occurrences_app, occurrences_invalidations.
    rewrite !occurrences_cons. repeat case_decide; by simplify_eq.
  - intros i Hi.
    change (MutexLock (event_loop ir) :: ?t ++ ?u)
      with (([MutexLock (event_loop ir)] ++ t) ++ u).
    apply occurs_before_app.
    + apply elem_of_app. right. apply list_elem_of_fmap. by exists i.
    + apply elem_of_cons. by left.
Qed.

Lemma invalidation_trace_lock_position el el' d l (k : nat) :
  (MutexLock el :: (InvalidateRequest <$> l) ++ [DeleteRecord d; MutexUnlock el]) !! k
    = Some (MutexLock el') →
  k = 0%nat.
Proof.
  destruct k as [|k]; simpl; [done|].
  intros [H|[Hle H]]%lookup_app_Some.
  - rewrite list_lookup_fmap in H. by destruct (l !! k).
  - destruct (k - length (InvalidateRequest <$> l))%nat as [|[|n]]; simplify_eq/=.
Qed.

Lemma invalidation_trace_flip_position el d l i (k : nat) :
  (MutexLock el :: (InvalidateRequest <$> l) ++ [DeleteRecord d; MutexUnlock el]) !! k
    = Some (InvalidateRequest i) →
  (1 ≤ k ≤ length l)%nat.
Proof.
  destruct k as [|k]; simpl; [done|].
  intros [H|[Hle H]]%lookup_app_Some.
  - apply lookup_lt_Some in H. rewrite length_fmap in H. lia.
  - destruct (k - length (InvalidateRequest <$> l))%nat as [|[|n]]; simplify_eq/=.
Qed.

(** C5, as the code has it. For a record whose owning event loop is set, the
    record is deleted while the event loop's invalidation mutex is still
    held: the mutex is locked first, then the listed requests are flipped,
    one after the other, then the record is deleted, and only then is the
    mutex unlocked.  No request is flipped before the lock is taken or after
    the record is deleted, and the unlock never comes before the delete. *)
Theorem invalidate_request_deletes_under_mutex s data ir :
  invalidation_records s !! data = Some ir →
  event_loop ir ≠ NULL →
  Forall (λ i, is_Some (request_objects s !! i)) (requests ir) →
  ∃ s', invalidate_request data s = Some (NULL, s')
      ∧ occurs_before (MutexLock (event_loop ir)) (DeleteRecord data) (new_events s s')
      ∧ occurs_before (DeleteRecord data) (MutexUnlock (event_loop ir)) (new_events s s')
      ∧ ¬ occurs_before (MutexUnlock (event_loop ir)) (DeleteRecord data) (new_events s s')
      ∧ last (new_events s s') = Some (MutexUnlock (event_loop ir))
      ∧ new_events s s'
        = MutexLock (event_loop ir)
            :: (InvalidateRequest <$> requests ir)
            ++ [DeleteRecord data; MutexUnlock (event_loop ir)]
      ∧ (∀ i, i ∈ requests ir →
           (∃ r, request_objects s' !! i = Some r ∧ valid r = false ∧ invalidation r = NULL)
           ∧ occurs_before (MutexLock (event_loop ir)) (InvalidateRequest i) (new_events s s')
           ∧ occurs_before (InvalidateRequest i) (DeleteRecord data) (new_events s s'))
      ∧ (∀ i, ¬ occurs_before (InvalidateRequest i) (MutexLock (event_loop ir))
                  (new_events s s')
              ∧ ¬ occurs_before (DeleteRecord data) (InvalidateRequest i) (new_events s s')
              ∧ ¬ occurs_before (MutexUnlock (event_loop ir)) (InvalidateRequest i)
                    (new_events s s')).
Proof.
  intros Hir Hloop Hall.
  destruct (invalidate_request_live s data ir Hir Hloop Hall) as (h & Hrun & Hin & _).
  eexists. split; [exact Hrun|].
  erewrite new_events_app by reflexivity. simpl.
  split; [|split; [|split; [|split; [|split; [done|split]]]]].
  - change (MutexLock (event_loop ir) :: ?t) with ([MutexLock (event_loop ir)] ++ t).
    apply occurs_before_app; [by apply elem_of_cons; left|].
    apply elem_of_app. right. apply elem_of_cons. by left.
  - rewrite trace_split_last.
    apply occurs_before_app; [|by apply elem_of_cons; left].
    apply elem_of_cons. right. apply elem_of_app. right. by apply elem_of_cons; left.
  - intros (i & j & Hi & Hj & Hlt).
    apply invalidation_trace_unlock_position in Hi.
    apply invalidation_trace_delete_position in Hj. lia.
  - rewrite trace_split_last. apply last_snoc.
  - intros i Hi. split; [|split].
    + eexists. split; [by apply Hin|done].
    + change (MutexLock (event_loop ir) :: ?t) with ([MutexLock (event_loop ir)] ++ t).
      apply occurs_before_app; [by apply elem_of_cons; left|].
      apply elem_of_app. left. apply list_elem_of_fmap. by exists i.
    + change (MutexLock (event_loop ir) :: ?t ++ ?u)
        with (([MutexLock (event_loop ir)] ++ t) ++ u).
      apply occurs_before_app.
      * apply elem_of_app. right. apply list_elem_of_fmap. by exists i.
      * apply elem_of_cons. by left.
  - intros i. split; [|split].
    + intros (j & k & Hj & Hk & Hlt).
      apply invalidation_trace_lock_position in Hk. lia.
    + intros (j & k & Hj & Hk & Hlt).
      apply invalidation_trace_delete_position in Hj.
      apply invalidation_trace_flip_position in Hk. lia.
    + intros (j & k & Hj & Hk & Hlt).
      apply invalidation_trace_unlock_position in Hj.
      apply invalidation_trace_flip_position in Hk. lia.
Qed.

(** C2, as the code has it. For a record whose owning event loop is null,
    [invalidate_request] returns 0 and leaves the whole state as it was: no
    request object is written, no event is recorded, and the record is not
    deleted: it stays allocated. *)
Theorem invalidate_request_without_loop_keeps_record s data ir :
  invalidation_records s !! data = Some ir →
  event_loop ir = NULL →
  ∃ s', invalidate_request data s = Some (NULL, s')
      ∧ request_objects s' = request_objects s
      ∧ invalidation_records s' !! data = Some ir
      ∧ new_events s s' = []
      ∧ s' = s.
Proof.
  intros Hir Hloop. exists s.
  split; [by eapply invalidate_request_detached|].
  split; [done|]. split; [done|]. split; [|done].
  unfold new_events. apply drop_all.
Qed.

End Invalidation.

Lemma invalidate_request_flips_exactly_pending_witness :
  (∃ s', invalidate_request 1 ex_invalidation_state = Some (NULL, s')
       ∧ request_objects s' !! 10 = Some (mkBaseRequestObject false NULL)
       ∧ request_objects s' !! 11 = Some (mkBaseRequestObject false NULL)
       ∧ request_objects s' !! 12 = Some (mkBaseRequestObject true 2)
       ∧ invalidation_records s' !! 1 = None)
  ∧ (∃ s', invalidate_request 3 ex_invalidation_state = Some (NULL, s')
         ∧ request_objects s' = request_objects ex_invalidation_state
         ∧ invalidation_records s' !! 3 = None
         ∧ occurrences (DeleteRecord 3) (new_events ex_invalidation_state s') = 1%nat).
Proof.
  split.
  - destruct (invalidate_request_flips_exactly_pending ex_invalidation_state 1
                (mkInvalidationRecord [10; 11] 7))
      as (s' & Hrun & Hin & Hout & _ & Hrec & _).
    + reflexivity.
    + discriminate.
    + repeat constructor; by eexists.
    + exists s'. split; [exact Hrun|].
      vm_compute in Hrun. injection Hrun as <-. vm_compute. done.
  - destruct (invalidate_request_flips_exactly_pending ex_invalidation_state 3
                (mkInvalidationRecord [] 7))
      as (s' & Hrun & _ & Hout & _ & Hrec & Hdel & _).
    + reflexivity.
    + discriminate.
    + constructor.
    + exists s'. split; [exact Hrun|]. split; [|split; [|exact Hdel]].
      * apply map_eq. intros i. apply Hout. apply not_elem_of_nil.
      * rewrite Hrec. apply lookup_delete_eq.
Defined.

Lemma invalidate_request_deletes_under_mutex_witness :
  ∃ s', invalidate_request 1 ex_invalidation_state = Some (NULL, s')
      ∧ occurs_before (DeleteRecord 1) (MutexUnlock 7) (new_events ex_invalidation_state s')
      ∧ new_events ex_invalidation_state s'
        = [MutexLock 7; InvalidateRequest 10; InvalidateRequest 11;
           DeleteRecord 1; MutexUnlock 7]
      ∧ occurs_before (MutexLock 7) (InvalidateRequest 11)
          (new_events ex_invalidation_state s')
      ∧ occurs_before (InvalidateRequest 11) (DeleteRecord 1)
          (new_events ex_invalidation_state s').
Proof.
  destruct (invalidate_request_deletes_under_mutex ex_invalidation_state 1
              (mkInvalidationRecord [10; 11] 7))
    as (s' & Hrun & _ & Hord & _ & _ & Htrace & Hflips & _).
  - reflexivity.
  - discriminate.
  - repeat constructor; by eexists.
  - exists s'. split; [exact Hrun|]. split; [exact Hord|]. split; [exact Htrace|].
    destruct (Hflips 11) as (_ & Hlock & Hdelete).
    + apply list_elem_of_further, list_elem_of_here.
    + by split.
Defined.

(** C5, as stated, fails: on the record at address 1 the events of the call
    are lock, flip 10, flip 11, delete, unlock, so the unlock does not come
    before the delete. *)
Lemma invalidate_request_unlock_before_delete_counterexample :
  ∃ s', invalidate_request 1 ex_invalidation_state = Some (NULL, s')
      ∧ new_events ex_invalidation_state s'
        = [MutexLock 7; InvalidateRequest 10; InvalidateRequest 11;
           DeleteRecord 1; MutexUnlock 7]
      ∧ ¬ occurs_before (MutexUnlock 7) (DeleteRecord 1)
            (new_events ex_invalidation_state s').
Proof.
  eexists. split; [vm_compute; reflexivity|].
  split; [reflexivity|].
  intros (i & j & Hi & Hj & Hlt). cbn in Hi, Hj.
  do 5 (destruct i as [|i]; [try discriminate Hi|]); [|by destruct i].
  do 4 (destruct j as [|j]; [try discriminate Hj; lia|]).
  do 2 (destruct j as [|j]; try discriminate Hj).
Qed.

Lemma invalidate_request_without_loop_keeps_record_witness :
  ∃ s', invalidate_request 2 ex_invalidation_state = Some (NULL, s')
      ∧ s' = ex_invalidation_state.
Proof.
  destruct (invalidate_request_without_loop_keeps_record ex_invalidation_state 2
              (mkInvalidationRecord [12] NULL))
    as (s' & Hrun & _ & _ & _ & Heq).
  - reflexivity.
  - reflexivity.
  - exists s'. by split.
Defined.

(** C2, as stated, fails: the record at address 2 has no owning event loop,
    and after the call it is still allocated and no delete was recorded. *)
Lemma invalidate_request_without_loop_frees_counterexample :
  ¬ (∃ s', invalidate_request 2 ex_invalidation_state = Some (NULL, s')
         ∧ invalidation_records s' !! 2 = None).
Proof.
  intros (s' & Hrun & Hfreed).
  vm_compute in Hrun. injection Hrun as <-. vm_compute in Hfreed. discriminate.
Qed.

Section Registry.

Context {World : Type}.
Implicit Types (s : State World) (trs : RequestBufferSupplier World)
  (l : list (RequestBufferSupplier World)) (tb : gmap string ThreadBufferMapping)
  (ws : list (string * ThreadBufferMapping)) (m : ThreadBufferMapping).

(** *** The loop of [pre_register] *)

Lemma pre_register_loop_spec e n self l : ∀ m s,
  (foldl (pre_register_body e n self) (m, s) l).2
  = let ws := pre_register_writes e n self l (world s) in
    mkState (thread_event_loop s) (apply_writes (thread_buffer_requests s) ws.1)
      (request_buffer_suppliers s) (request_objects s) (invalidation_records s)
      (trace s ++ (StoreMapping ∘ fst <$> ws.1)) ws.2.
Proof.
  induction l as [|trs l IH]; intros m s.
  - simpl. rewrite app_nil_r. by destruct s.
  - cbn [foldl pre_register_writes pre_register_body].
    destruct (factory trs) as [fac|]; [|apply IH].
    case_decide; [apply IH|].
    destruct (fac n (world s)) as [buf w] eqn:Hfac. rewrite IH. simpl.
    unfold apply_writes. simpl. by rewrite <- app_assoc.
Qed.

Lemma pre_register_spec e n self s :
  pre_register e n self s
  = let ws := pre_register_writes e n self (request_buffer_suppliers s) (world s) in
    mkState (thread_event_loop s) (apply_writes (thread_buffer_requests s) ws.1)
      (request_buffer_suppliers s) (request_objects s) (invalidation_records s)
      (trace s ++ ReaderLock :: (StoreMapping ∘ fst <$> ws.1) ++ [ReaderUnlock]) ws.2.
Proof.
  unfold pre_register.
  pose proof (pre_register_loop_spec e n self (request_buffer_suppliers (emit ReaderLock s))
                fresh_mapping (emit ReaderLock s)) as H.
  destruct (foldl _ _ _) as [m s2]. simpl in H. subst s2.
  unfold emit. simpl. f_equal. rewrite <- !app_assoc. done.
Qed.

(** *** What the loop stores *)

Lemma pre_register_writes_keys e n self l : ∀ w,
  (pre_register_writes e n self l w).1.*1
  = make_key e ∘ name <$> filter (wants_buffer_from e) l.
Proof.
  induction l as [|trs l IH]; intros w; [done|].
  simpl. rewrite filter_cons.
  destruct (decide (wants_buffer_from e trs)) as [[[fac Hfac] He]|Hn].
  - rewrite Hfac, decide_False by done. simpl. by rewrite IH.
  - destruct (factory trs) as [fac|] eqn:Hfac; [|apply IH].
    case_decide; [apply IH|]. exfalso. apply Hn. split; [by eexists|done].
Qed.

Lemma pre_register_writes_shape e n self l : ∀ w,
  Forall (λ kv, kv.1 = make_key e (target_thread_name kv.2) ∧ emitting_thread kv.2 = self)
    (pre_register_writes e n self l w).1.
Proof.
  induction l as [|trs l IH]; intros w; [by constructor|].
  simpl. destruct (factory trs) as [fac|]; [|apply IH].
  case_decide; [apply IH|]. simpl. constructor; [done|apply IH].
Qed.

Lemma elem_of_written_keys e n self l w k :
  k ∈ (pre_register_writes e n self l w).1.*1
  ↔ ∃ trs, trs ∈ l ∧ wants_buffer_from e trs ∧ k = make_key e (name trs).
Proof.
  rewrite pre_register_writes_keys, list_elem_of_fmap. split.
  - intros (trs & -> & [? ?]%list_elem_of_filter). by exists trs.
  - intros (trs & ? & ? & ->). exists trs. split; [done|]. by apply list_elem_of_filter.
Qed.

(** *** Stores applied to a table *)

Lemma apply_writes_cons tb kv ws :
  apply_writes tb (kv :: ws) = apply_writes (<[kv.1 := kv.2]> tb) ws.
Proof. done. Qed.

Lemma lookup_apply_writes_other ws : ∀ tb k,
  k ∉ ws.*1 → apply_writes tb ws !! k = tb !! k.
Proof.
  induction ws as [|kv ws IH]; intros tb k Hk; [done|].
  rewrite fmap_cons in Hk. apply not_elem_of_cons in Hk as [Hne Hk].
  rewrite apply_writes_cons, IH by done. by rewrite lookup_insert_ne.
Qed.

(** A key that is stored ends up holding one of the stored mappings, the
    same one whatever the table held before. *)
Lemma lookup_apply_writes_written ws k :
  k ∈ ws.*1 → ∃ m, (k, m) ∈ ws ∧ ∀ tb, apply_writes tb ws !! k = Some m.
Proof.
  induction ws as [|[k' m'] ws IH]; intros Hk; [by apply elem_of_nil in Hk|].
  destruct (decide (k ∈ ws.*1)) as [Hin|Hout].
  - destruct (IH Hin) as (m & Hm & Hlook). exists m.
    split; [by apply elem_of_cons; right|]. intros tb. rewrite apply_writes_cons. apply Hlook.
  - rewrite fmap_cons in Hk. apply elem_of_cons in Hk as [->|Hk]; [|done].
    exists m'. split; [by apply elem_of_cons; left|]. intros tb.
    rewrite apply_writes_cons, lookup_apply_writes_other by done.
    simpl. by rewrite lookup_insert_eq.
Qed.

(** *** Keys *)

Lemma string_length_app (a b : string) :
  String.length (a +:+ b) = (String.length a + String.length b)%nat.
Proof. induction a as [|c a IH]; simpl; [done|by rewrite IH]. Qed.



Lemma make_key_inj_role e (r1 r2 : string) :
  make_key e r1 = make_key e r2 → r1 = r2.
Proof. unfold make_key. intros H. by apply (inj (String.app _)) in H. Qed.

(** *** The lookup by target thread *)

Lemma collect_mapping_foldl role (l : list (string * ThreadBufferMapping)) : ∀ acc,
  foldl (collect_mapping role) acc l
  = acc ++ (filter (λ kv, target_thread_name kv.2 = role) l).*2.
Proof.
  induction l as [|kv l IH]; intros acc; [by rewrite app_nil_r|].
  cbn [foldl]. rewrite IH, filter_cons. unfold collect_mapping.
  case_decide; [|done]. by rewrite fmap_cons, <- app_assoc.
Qed.

Lemma get_request_buffers_result role s :
  get_request_buffers_for_target_thread role s
  = ((entries_for role (thread_buffer_requests s)).*2, emit WriterUnlock (emit WriterLock s)).
Proof.
  unfold get_request_buffers_for_target_thread. by rewrite collect_mapping_foldl.
Qed.

Lemma elem_of_entries_for role tb k m :
  (k, m) ∈ entries_for role tb ↔ tb !! k = Some m ∧ target_thread_name m = role.
Proof.
  unfold entries_for. rewrite list_elem_of_filter, elem_of_map_to_list. simpl. tauto.
Qed.

Lemma NoDup_entries_for_keys role tb : NoDup (entries_for role tb).*1.
Proof.
  eapply sublist_NoDup; [apply (NoDup_fst_map_to_list tb)|].
  apply fmap_sublist, sublist_filter.
Qed.

(** The keys of the matching entries: each key once, the returned mappings
    are what the table holds under them, and no matching key is left out. *)
Lemma entries_for_keys role tb :
  let ks := (entries_for role tb).*1 in
  NoDup ks
  ∧ Forall2 (λ k m, tb !! k = Some m) ks (entries_for role tb).*2
  ∧ (∀ k, k ∈ ks ↔ ∃ m, tb !! k = Some m ∧ target_thread_name m = role).
Proof.
  split; [apply NoDup_entries_for_keys|]. split.
  - apply Forall2_fmap, Forall_Forall2_diag, Forall_forall.
    intros [k m] H%elem_of_entries_for. simpl. tauto.
  - intros k. rewrite list_elem_of_fmap. split.
    + intros ([k' m] & -> & H%elem_of_entries_for). by exists m.
    + intros (m & H). exists (k, m). split; [done|]. by apply elem_of_entries_for.
Qed.

(** *** The events of one call of [pre_register] *)

Lemma pre_register_new_events e n self s :
  new_events s (pre_register e n self s)
  = ReaderLock
      :: (StoreMapping ∘ fst
            <$> (pre_register_writes e n self (request_buffer_suppliers s) (world s)).1)
      ++ [ReaderUnlock].
Proof. apply new_events_app. by rewrite pre_register_spec. Qed.

Lemma store_in_new_events e n self s k :
  StoreMapping k ∈ new_events s (pre_register e n self s)
  ↔ k ∈ (pre_register_writes e n self (request_buffer_suppliers s) (world s)).1.*1.
Proof.
  rewrite pre_register_new_events, elem_of_cons, elem_of_app, list_elem_of_singleton.
  rewrite !list_elem_of_fmap. split.
  - intros [?|[([k' m] & ? & ?)|?]]; simplify_eq/=. by exists (k', m).
  - intros ([k' m] & -> & ?). right. left. by exists (k', m).
Qed.

Lemma stored_key_wanted e n self s k :
  StoreMapping k ∈ new_events s (pre_register e n self s)
  ↔ ∃ trs, trs ∈ request_buffer_suppliers s ∧ is_Some (factory trs) ∧ name trs ≠ e
            ∧ k = make_key e (name trs).
Proof.
  rewrite store_in_new_events, elem_of_written_keys. unfold wants_buffer_from.
  split.
  - intros (trs & Hin & [Hfac Hne] & Hk). exists trs. by repeat split.
  - intros (trs & Hin & Hfac & Hne & Hk). exists trs. by repeat split.
Qed.

(** What a stored key holds after the call, whatever the table held before. *)
Lemma stored_key_lookup e n self s k :
  StoreMapping k ∈ new_events s (pre_register e n self s) →
  ∃ m, emitting_thread m = self ∧ k = make_key e (target_thread_name m)
     ∧ ∀ tb, thread_buffer_requests
               (pre_register e n self (with_thread_buffer_requests tb s)) !! k = Some m.
Proof.
  intros Hk%store_in_new_events.
  destruct (lookup_apply_writes_written _ _ Hk) as (m & Hm & Hlook).
  pose proof (pre_register_writes_shape e n self (request_buffer_suppliers s) (world s)) as Hs.
  rewrite Forall_forall in Hs. destruct (Hs _ Hm) as [Hkey Hself]. simpl in *.
  exists m. split; [done|]. split; [done|].
  intros tb. rewrite pre_register_spec. simpl. apply Hlook.
Qed.

Lemma with_thread_buffer_requests_same s :
  with_thread_buffer_requests (thread_buffer_requests s) s = s.
Proof. by destruct s. Qed.

Lemma writes_without_writer_lock (ks : list string) :
  ks ≠ [] →
  writes_hold_writer_lock Unlocked (ReaderLock :: (StoreMapping <$> ks) ++ [ReaderUnlock])
  = false.
Proof. by destruct ks. Qed.

(** *** Keys of the stored entries *)

Lemma keyed_by_emitter_empty : keyed_by_emitter ∅.
Proof. intros k m H. by rewrite lookup_empty in H. Qed.





(** C3. [pre_register] stores a mapping under the key made of the
    emitter's name, '/' and the supplier's name for every supplier that has a
    factory and whose name is not the emitter's, and under no other key:
    suppliers without a factory and the supplier named like the emitter are
    skipped, and every other key keeps what it held.  With suppliers "ui"
    (factory [f]), "workerA" (factory [g]) and "audio" (no factory)
    registered in this order and nothing else, [pre_register "workerA" 64]
    leaves exactly one mapping in the table, under "workerA/ui", and none
    under "workerA/workerA" or "workerA/audio". *)
Theorem pre_register_stores_for_wanted_suppliers s e n self (f g : Factory) (w : World) :
  let s' := pre_register e n self s in
  let s0 := register_request_buffer_factory "audio" None
              (register_request_buffer_factory "workerA" (Some g)
                 (register_request_buffer_factory "ui" (Some f) (initial_state w))) in
  let s0' := pre_register "workerA" 64 self s0 in
  (∀ k, StoreMapping k ∈ new_events s s'
        ↔ ∃ trs, trs ∈ request_buffer_suppliers s ∧ is_Some (factory trs) ∧ name trs ≠ e
                  ∧ k = make_key e (name trs))
  ∧ (∀ k, StoreMapping k ∉ new_events s s' →
          thread_buffer_requests s' !! k = thread_buffer_requests s !! k)
  ∧ (∀ k, StoreMapping k ∈ new_events s s' →
          ∃ m, thread_buffer_requests s' !! k = Some m
             ∧ emitting_thread m = self ∧ k = make_key e (target_thread_name m))
  ∧ thread_buffer_requests s0'
    = {[ "workerA/ui" := mkThreadBufferMapping self "ui" (f 64 w).1 ]}
  ∧ size (thread_buffer_requests s0') = 1%nat
  ∧ thread_buffer_requests s0' !! "workerA/workerA" = None
  ∧ thread_buffer_requests s0' !! "workerA/audio" = None
  ∧ new_events s0 s0' = [ReaderLock; StoreMapping "workerA/ui"; ReaderUnlock].
Proof.
  intros s' s0 s0'.
  assert (Htable : thread_buffer_requests s0'
                   = {[ "workerA/ui" := mkThreadBufferMapping self "ui" (f 64 w).1 ]}).
  { subst s0' s0. rewrite pre_register_spec. vm_compute. reflexivity. }
  split; [intros k; apply stored_key_wanted|].
  split; [|split; [|split; [exact Htable|split; [|split; [|split]]]]].
  - intros k Hk. subst s'. rewrite store_in_new_events in Hk.
    rewrite pre_register_spec. simpl. by apply lookup_apply_writes_other.
  - intros k Hk. destruct (stored_key_lookup _ _ _ _ _ Hk) as (m & Hself & Hkey & Hlook).
    exists m. split; [|done].
    specialize (Hlook (thread_buffer_requests s)).
    by rewrite with_thread_buffer_requests_same in Hlook.
  - rewrite Htable. apply map_size_singleton.
  - rewrite Htable. by apply lookup_singleton_ne.
  - rewrite Htable. by apply lookup_singleton_ne.
  - subst s0' s0. rewrite pre_register_new_events. vm_compute. reflexivity.
Qed.


(** C6, as the code has it. [pre_register] takes the reader lock and never
    the writer lock, so whenever some supplier wants a buffer a mapping is
    stored while only the reader lock is held; registering a supplier, by
    contrast, writes under the writer lock.  On the three suppliers "ui",
    "workerA", "audio" the call [pre_register "workerA" 64] stores
    "workerA/ui" between taking and releasing the reader lock. *)
Theorem pre_register_stores_under_reader_lock s e n self nm (fac : option Factory) :
  let tr := new_events s (pre_register e n self s) in
  head tr = Some ReaderLock
  ∧ (WriterLock ∉ tr)
  ∧ ((∃ trs, trs ∈ request_buffer_suppliers s ∧ is_Some (factory trs) ∧ name trs ≠ e) →
     writes_hold_writer_lock Unlocked tr = false)
  ∧ writes_hold_writer_lock Unlocked
      (new_events s (register_request_buffer_factory nm fac s)) = true
  ∧ new_events ex_registry_state (pre_register "workerA" 64 1 ex_registry_state)
    = [ReaderLock; StoreMapping "workerA/ui"; ReaderUnlock]
  ∧ writes_hold_writer_lock Unlocked
      (new_events ex_registry_state (pre_register "workerA" 64 1 ex_registry_state))
    = false.
Proof.
  intros tr. subst tr. rewrite pre_register_new_events.
  split; [done|]. split; [|split; [|split; [|split]]].
  - rewrite elem_of_cons, elem_of_app, list_elem_of_singleton, list_elem_of_fmap.
    intros [?|[(? & ? & ?)|?]]; simplify_eq/=.
  - intros (trs & Hin & Hfac & Hne).
    rewrite list_fmap_compose. apply writes_without_writer_lock.
    intros Hnil.
    assert (Hk : make_key e (name trs)
                 ∈ (pre_register_writes e n self (request_buffer_suppliers s) (world s)).1.*1).
    { apply elem_of_written_keys. exists trs. by repeat split. }
    rewrite Hnil in Hk. by apply elem_of_nil in Hk.
  - erewrite new_events_app; [|unfold register_request_buffer_factory; simpl;
      rewrite <- !app_assoc; reflexivity]. done.
  - vm_compute. reflexivity.
  - vm_compute. reflexivity.
Qed.

(** C8. [get_request_buffers_for_target_thread role] returns the mappings
    stored in the table whose target thread name is [role]: a mapping is
    returned exactly when it is stored under some key and has that target,
    the returned vector lists the matching entries one for one (one per
    matching key, no key twice), and the table, the suppliers and the rest
    of the state are left as they were; only the writer lock is taken and
    released. *)
Theorem get_request_buffers_returns_matching s role :
  let ret := (get_request_buffers_for_target_thread role s).1 in
  let s' := (get_request_buffers_for_target_thread role s).2 in
  (∀ m, m ∈ ret ↔ ∃ k, thread_buffer_requests s !! k = Some m
                       ∧ target_thread_name m = role)
  ∧ (∃ ks, NoDup ks
         ∧ Forall2 (λ k m, thread_buffer_requests s !! k = Some m) ks ret
         ∧ (∀ k, k ∈ ks ↔ ∃ m, thread_buffer_requests s !! k = Some m
                               ∧ target_thread_name m = role))
  ∧ thread_buffer_requests s' = thread_buffer_requests s
  ∧ request_buffer_suppliers s' = request_buffer_suppliers s
  ∧ thread_event_loop s' = thread_event_loop s
  ∧ request_objects s' = request_objects s
  ∧ invalidation_records s' = invalidation_records s
  ∧ world s' = world s
  ∧ new_events s s' = [WriterLock; WriterUnlock].
Proof.
  intros ret s'. subst ret s'. rewrite get_request_buffers_result. simpl.
  split; [|split].
  - intros m. rewrite list_elem_of_fmap. split.
    + intros ([k m'] & -> & H%elem_of_entries_for). by exists k.
    + intros (k & H). exists (k, m). split; [done|]. by apply elem_of_entries_for.
  - eexists. apply entries_for_keys.
  - repeat (split; [done|]). apply new_events_app. simpl. by rewrite <- app_assoc.
Qed.

(** C9. [register_request_buffer_factory] is total and checks nothing: for
    every name (the empty one and one already registered included) and every
    factory pointer (the null one included) it appends one supplier with
    that name and factory at the end of the supplier list, keeping what was
    there in its order, under the writer lock, and touches nothing else. *)
Theorem register_request_buffer_factory_appends s nm (fac : option Factory) :
  let s' := register_request_buffer_factory nm fac s in
  request_buffer_suppliers s' = request_buffer_suppliers s ++ [mkRequestBufferSupplier nm fac]
  ∧ length (request_buffer_suppliers s') = S (length (request_buffer_suppliers s))
  ∧ (∀ (i : nat) trs, request_buffer_suppliers s !! i = Some trs →
                      request_buffer_suppliers s' !! i = Some trs)
  ∧ last (request_buffer_suppliers s') = Some (mkRequestBufferSupplier nm fac)
  ∧ request_buffer_suppliers (register_request_buffer_factory "" None s)
    = request_buffer_suppliers s ++ [mkRequestBufferSupplier "" None]
  ∧ request_buffer_suppliers (register_request_buffer_factory nm fac s')
    = request_buffer_suppliers s
      ++ [mkRequestBufferSupplier nm fac; mkRequestBufferSupplier nm fac]
  ∧ thread_buffer_requests s' = thread_buffer_requests s
  ∧ thread_event_loop s' = thread_event_loop s
  ∧ world s' = world s
  ∧ new_events s s' = [WriterLock; PushSupplier nm; WriterUnlock].
Proof.
  intros s'. subst s'. unfold register_request_buffer_factory. simpl.
  split; [done|]. split; [by rewrite length_app, Nat.add_1_r|].
  split; [intros i trs H; by apply lookup_app_l_Some|].
  split; [apply last_snoc|]. split; [done|].
  split; [by rewrite <- app_assoc|].
  repeat (split; [done|]). apply new_events_app. simpl. by rewrite <- !app_assoc.
Qed.

(** C10. [pre_register] leaves the supplier list as it was, names,
    factories and order: no supplier is pushed, and the per-thread slots and
    the heap objects are untouched too; of the static containers only the
    table of buffer requests is written. *)
Theorem pre_register_keeps_suppliers s e n self :
  let s' := pre_register e n self s in
  request_buffer_suppliers s' = request_buffer_suppliers s
  ∧ (∀ nm, PushSupplier nm ∉ new_events s s')
  ∧ thread_event_loop s' = thread_event_loop s
  ∧ request_objects s' = request_objects s
  ∧ invalidation_records s' = invalidation_records s.
Proof.
  intros s'. subst s'. rewrite pre_register_new_events, pre_register_spec. simpl.
  split; [done|]. split; [|done].
  intros nm. rewrite elem_of_cons, elem_of_app, list_elem_of_singleton, list_elem_of_fmap.
  intros [?|[(? & ? & ?)|?]]; simplify_eq/=.
Qed.

(** C7. A thread that stored nothing in its slot reads NULL from it; after
    [set_event_loop_for_thread X] it reads [X]; after a further
    [set_event_loop_for_thread Y] it reads [Y], hence not [X] when the two
    differ; what another thread stores is not seen.  Storing changes the
    slot only: nothing is deleted, no event is recorded, and the destroy
    notifier of the slot leaves the state as it is. *)
Theorem thread_event_loop_slot s (self other : pthread_t) (X Y : ptr) (w : World) :
  let sX := set_event_loop_for_thread self X s in
  let sXY := set_event_loop_for_thread self Y sX in
  get_event_loop_for_thread self (initial_state w) = NULL
  ∧ (thread_event_loop s !! self = None → get_event_loop_for_thread self s = NULL)
  ∧ get_event_loop_for_thread self sX = X
  ∧ get_event_loop_for_thread self sXY = Y
  ∧ (X ≠ Y → get_event_loop_for_thread self sXY ≠ X)
  ∧ (other ≠ self →
     get_event_loop_for_thread self (set_event_loop_for_thread other X s)
     = get_event_loop_for_thread self s)
  ∧ new_events s sXY = []
  ∧ request_objects sXY = request_objects s
  ∧ invalidation_records sXY = invalidation_records s
  ∧ thread_buffer_requests sXY = thread_buffer_requests s
  ∧ request_buffer_suppliers sXY = request_buffer_suppliers s
  ∧ do_not_delete_the_loop_pointer X sXY = sXY.
Proof.
  intros sX sXY. subst sX sXY.
  unfold get_event_loop_for_thread, set_event_loop_for_thread. simpl.
  split; [done|]. split; [by intros ->|].
  rewrite !lookup_insert_eq. simpl.
  split; [done|]. split; [done|]. split; [by intros H ->|].
  split; [intros H; by rewrite lookup_insert_ne|].
  split; [|done]. unfold new_events. simpl. apply drop_all.
Qed.

End Registry.

(** ** The properties at concrete inputs *)

Lemma pre_register_stores_for_wanted_suppliers_witness :
  let s := ex_registry_state in
  let s' := pre_register "workerA" 64 1 s in
  StoreMapping "workerA/ui" ∈ new_events s s'
  ∧ (StoreMapping "workerA/audio" ∉ new_events s s')
  ∧ thread_buffer_requests s' !! "workerA/audio" = thread_buffer_requests s !! "workerA/audio"
  ∧ (∃ m, thread_buffer_requests s' !! "workerA/ui" = Some m ∧ emitting_thread m = 1)
  ∧ thread_buffer_requests s' = {[ "workerA/ui" := mkThreadBufferMapping 1 "ui" 1000 ]}.
Proof.
  intros s s'.
  assert (Hin : StoreMapping "workerA/ui" ∈ new_events s s').
  { apply (bool_decide_unpack _). vm_compute. exact I. }
  assert (Hout : StoreMapping "workerA/audio" ∉ new_events s s').
  { apply (bool_decide_unpack _). vm_compute. exact I. }
  destruct (pre_register_stores_for_wanted_suppliers s "workerA" 64 1
              (ex_factory 1000) (ex_factory 2000) 0)
    as (_ & Hother & Hstored & Htable & _).
  split; [exact Hin|]. split; [exact Hout|].
  split; [exact (Hother _ Hout)|]. split; [|exact Htable].
  destruct (Hstored _ Hin) as (m & Hm & Hself & _). by exists m.
Defined.


Lemma pre_register_stores_under_reader_lock_witness :
  writes_hold_writer_lock Unlocked
    (new_events ex_registry_state (pre_register "workerA" 64 1 ex_registry_state)) = false.
Proof.
  destruct (pre_register_stores_under_reader_lock ex_registry_state "workerA" 64 1
              "ui" (Some (ex_factory 1000)))
    as (_ & _ & Hbad & _).
  apply Hbad. exists (mkRequestBufferSupplier "ui" (Some (ex_factory 1000))).
  split; [apply list_elem_of_here|]. split; [by eexists|discriminate].
Defined.

Lemma thread_event_loop_slot_witness :
  let s := initial_state tt in
  get_event_loop_for_thread 1 s = NULL
  ∧ get_event_loop_for_thread 1
      (set_event_loop_for_thread 1 6 (set_event_loop_for_thread 1 5 s)) ≠ 5
  ∧ get_event_loop_for_thread 1 (set_event_loop_for_thread 2 5 s) = NULL.
Proof.
  intros s.
  destruct (thread_event_loop_slot s 1 2 5 6 tt)
    as (_ & Hnone & _ & _ & Hne & Hother & _).
  split; [apply Hnone; reflexivity|].
  split; [apply Hne; discriminate|].
  rewrite Hother by discriminate. apply Hnone. reflexivity.
Defined.

(** * Further properties of the invalidation routine *)

Section InvalidationMore.

Context {World : Type}.
Implicit Types (s : State World) (l : list ptr) (ir : InvalidationRecord).

(** The loop over the pending requests completes only if each of them is
    allocated. *)
Lemma invalidate_requests_defined l : ∀ s s',
  invalidate_requests l s = Some s' →
  Forall (λ i, is_Some (request_objects s !! i)) l.
Proof.
  induction l as [|i l IH]; intros s s' Hrun; [constructor|].
  simpl in Hrun. destruct (request_objects s !! i) as [r|] eqn:Hi; [|done].
  constructor; [by eexists|].
  eapply Forall_impl; [exact (IH _ _ Hrun)|].
  intros j. simpl. destruct (decide (i = j)) as [<-|Hne].
  - intros _. by eexists.
  - by rewrite lookup_insert_ne.
Qed.

(** The two ways a call can complete. *)
Lemma invalidate_request_cases s data r s' :
  invalidate_request data s = Some (r, s') →
  r = NULL
  ∧ ∃ ir, invalidation_records s !! data = Some ir
        ∧ ((event_loop ir = NULL ∧ s' = s)
           ∨ (event_loop ir ≠ NULL
              ∧ Forall (λ i, is_Some (request_objects s !! i)) (requests ir)
              ∧ ∃ h, s' = mkState (thread_event_loop s) (thread_buffer_requests s)
                            (request_buffer_suppliers s) h
                            (delete data (invalidation_records s))
                            (trace s ++ MutexLock (event_loop ir)
                                        :: (InvalidateRequest <$> requests ir)
                                        ++ [DeleteRecord data; MutexUnlock (event_loop ir)])
                            (world s)
                   ∧ (∀ i, i ∈ requests ir → h !! i = Some (mkBaseRequestObject false NULL))
                   ∧ (∀ i, i ∉ requests ir → h !! i = request_objects s !! i))).
Proof.
  intros Hrun.
  destruct (invalidation_records s !! data) as [ir|] eqn:Hir;
    [|unfold invalidate_request in Hrun; by rewrite Hir in Hrun].
  destruct (decide (event_loop ir = NULL)) as [Hnull|Hlive].
  - rewrite (invalidate_request_detached s data ir Hir Hnull) in Hrun.
    injection Hrun as <- <-. split; [done|]. exists ir. split; [done|]. by left.
  - assert (Hall : Forall (λ i, is_Some (request_objects s !! i)) (requests ir)).
    { unfold invalidate_request in Hrun. rewrite Hir in Hrun. simpl in Hrun.
      rewrite decide_True in Hrun by done.
      destruct (invalidate_requests _ _) as [s2|] eqn:Hloop; [|done].
      exact (invalidate_requests_defined _ _ _ Hloop). }
    destruct (invalidate_request_live s data ir Hir Hlive Hall) as (h & Hrun' & Hin & Hout).
    rewrite Hrun' in Hrun. injection Hrun as <- <-.
    split; [done|]. exists ir. split; [done|]. right.
    split; [done|]. split; [done|]. by exists h.
Qed.


(** X2. Invalidating the same record a second time: when the record has an
    owning event loop the first call deletes it, so the second call reads a
    record that is no longer allocated; when it has none, the first call
    deletes nothing and the second call is again a no-op. *)
Theorem invalidate_request_twice s data ir :
  invalidation_records s !! data = Some ir →
  Forall (λ i, is_Some (request_objects s !! i)) (requests ir) →
  ∃ s', invalidate_request data s = Some (NULL, s')
      ∧ (event_loop ir ≠ NULL → invalidate_request data s' = None)
      ∧ (event_loop ir = NULL → invalidate_request data s' = Some (NULL, s)).
Proof.
  intros Hir Hall. destruct (decide (event_loop ir = NULL)) as [Hnull|Hlive].
  - exists s. rewrite (invalidate_request_detached s data ir Hir Hnull).
    split; [done|]. split; [done|]. intros _. done.
  - destruct (invalidate_request_live s data ir Hir Hlive Hall) as (h & Hrun & _).
    eexists. split; [exact Hrun|]. split; [|done].
    intros _. unfold invalidate_request. simpl. by rewrite lookup_delete_eq.
Qed.

(** X3. If no request holds a back-reference to an unallocated record and
    the record being invalidated lists every request that refers to it, then
    after the call still no request holds a back-reference to an unallocated
    record: none is left pointing at the deleted one. *)
Theorem invalidate_request_keeps_back_references s data ir :
  invalidation_records s !! data = Some ir →
  event_loop ir ≠ NULL →
  Forall (λ i, is_Some (request_objects s !! i)) (requests ir) →
  no_dangling_invalidation s →
  lists_its_requests data ir s →
  ∃ s', invalidate_request data s = Some (NULL, s')
      ∧ no_dangling_invalidation s'
      ∧ (∀ i r, request_objects s' !! i = Some r → invalidation r ≠ NULL →
                invalidation r ≠ data).
Proof.
  intros Hir Hlive Hall Hnd Hlists.
  destruct (invalidate_request_live s data ir Hir Hlive Hall) as (h & Hrun & Hin & Hout).
  eexists. split; [exact Hrun|].
  assert (Hfresh : ∀ i r, h !! i = Some r → invalidation r ≠ NULL → invalidation r ≠ data).
  { intros i r Hi Hnn Heq. destruct (decide (i ∈ requests ir)) as [Hil|Hil].
    - rewrite (Hin i Hil) in Hi. injection Hi as <-. by apply Hnn.
    - rewrite (Hout i Hil) in Hi. apply Hil. by eapply Hlists. }
  split; [|exact Hfresh].
  intros i r Hi Hnn. simpl in *.
  rewrite lookup_delete_ne by (intros Heq; by eapply Hfresh).
  destruct (decide (i ∈ requests ir)) as [Hil|Hil].
  - rewrite (Hin i Hil) in Hi. injection Hi as <-. by destruct Hnn.
  - rewrite (Hout i Hil) in Hi. by eapply Hnd.
Qed.

(** X4. Invalidating two distinct records, both with an owning event loop,
    can be done in either order: both orders complete, and they leave the
    same request objects (those listed by either record invalid and
    detached, all others as before) and the same allocated records. *)
Theorem invalidate_request_commutes s a b ira irb :
  a ≠ b →
  invalidation_records s !! a = Some ira →
  invalidation_records s !! b = Some irb →
  event_loop ira ≠ NULL →
  event_loop irb ≠ NULL →
  Forall (λ i, is_Some (request_objects s !! i)) (requests ira ++ requests irb) →
  ∃ sa sab sb sba,
    invalidate_request a s = Some (NULL, sa)
    ∧ invalidate_request b sa = Some (NULL, sab)
    ∧ invalidate_request b s = Some (NULL, sb)
    ∧ invalidate_request a sb = Some (NULL, sba)
    ∧ request_objects sab = request_objects sba
    ∧ invalidation_records sab = invalidation_records sba
    ∧ (∀ i, i ∈ requests ira ++ requests irb →
            request_objects sab !! i = Some (mkBaseRequestObject false NULL))
    ∧ (∀ i, i ∉ requests ira ++ requests irb →
            request_objects sab !! i = request_objects s !! i).
Proof.
  intros Hne Ha Hb Hla Hlb [Halla Hallb]%Forall_app.
  assert (Hkeep : ∀ (h : gmap ptr BaseRequestObject) (l l' : list ptr),
            (∀ i, i ∈ l → h !! i = Some (mkBaseRequestObject false NULL)) →
            (∀ i, i ∉ l → h !! i = request_objects s !! i) →
            Forall (λ i, is_Some (request_objects s !! i)) l' →
            Forall (λ i, is_Some (h !! i)) l').
  { intros h l l' Hin Hout Hl'. eapply Forall_impl; [exact Hl'|].
    intros i Hi. simpl. destruct (decide (i ∈ l)) as [Hil|Hil].
    - rewrite (Hin i Hil). by eexists.
    - by rewrite (Hout i Hil). }
  destruct (invalidate_request_live s a ira Ha Hla Halla) as (ha & Hra & Hina & Houta).
  destruct (invalidate_request_live s b irb Hb Hlb Hallb) as (hb & Hrb & Hinb & Houtb).
  set (sa := mkState _ _ _ ha _ _ _) in Hra.
  set (sb := mkState _ _ _ hb _ _ _) in Hrb.
  destruct (invalidate_request_live sa b irb) as (hab & Hrab & Hinab & Houtab).
  { simpl. by rewrite lookup_delete_ne. }
  { done. }
  { simpl. by eapply Hkeep. }
  destruct (invalidate_request_live sb a ira) as (hba & Hrba & Hinba & Houtba).
  { simpl. by rewrite lookup_delete_ne. }
  { done. }
  { simpl. by eapply Hkeep. }
  simpl in *.
  assert (Hab_in : ∀ i, i ∈ requests ira ++ requests irb →
                        hab !! i = Some (mkBaseRequestObject false NULL)).
  { intros i Hi. destruct (decide (i ∈ requests irb)) as [Hib|Hib]; [by apply Hinab|].
    rewrite (Houtab i Hib). apply Hina. apply elem_of_app in Hi as [?|?]; done. }
  assert (Hab_out : ∀ i, i ∉ requests ira ++ requests irb →
                         hab !! i = request_objects s !! i).
  { intros i Hi. apply not_elem_of_app in Hi as [Hia Hib].
    by rewrite (Houtab i Hib), (Houta i Hia). }
  eexists _, _, _, _.
  split; [exact Hra|]. split; [exact Hrab|]. split; [exact Hrb|]. split; [exact Hrba|].
  simpl. split; [|split; [apply delete_delete|split; [exact Hab_in|exact Hab_out]]].
  apply map_eq. intros i.
  destruct (decide (i ∈ requests ira ++ requests irb)) as [Hi|Hi].
  - rewrite (Hab_in i Hi).
    destruct (decide (i ∈ requests ira)) as [Hia|Hia]; [by rewrite (Hinba i Hia)|].
    rewrite (Houtba i Hia). symmetry. apply Hinb.
    apply elem_of_app in Hi as [?|?]; done.
  - rewrite (Hab_out i Hi). apply not_elem_of_app in Hi as [Hia Hib].
    by rewrite (Houtba i Hia), (Houtb i Hib).
Qed.

(** X5. Whenever [invalidate_request] completes it returns 0 and has left
    the per-thread slots, the table of buffer requests, the suppliers and
    the collaborators' state as they were; it allocates and frees no request
    object, touches no record other than its argument, and never makes a
    request valid: a request that is valid afterwards is unchanged. *)
Theorem invalidate_request_frame s data r s' :
  invalidate_request data s = Some (r, s') →
  r = NULL
  ∧ thread_event_loop s' = thread_event_loop s
  ∧ thread_buffer_requests s' = thread_buffer_requests s
  ∧ request_buffer_suppliers s' = request_buffer_suppliers s
  ∧ world s' = world s
  ∧ dom (request_objects s') = dom (request_objects s)
  ∧ (∀ d, d ≠ data → invalidation_records s' !! d = invalidation_records s !! d)
  ∧ (∀ i x, request_objects s' !! i = Some x → valid x = true →
            request_objects s !! i = Some x).
Proof.
  intros Hrun.
  destruct (invalidate_request_cases _ _ _ _ Hrun)
    as (-> & ir & Hir & [[_ ->]|(_ & Hall & h & -> & Hin & Hout)]).
  - repeat (split; [done|]). done.
  - simpl. repeat (split; [done|]). split; [|split].
    + apply set_eq. intros i. rewrite !elem_of_dom.
      destruct (decide (i ∈ requests ir)) as [Hil|Hil].
      * rewrite (Hin i Hil). rewrite Forall_forall in Hall. specialize (Hall i Hil).
        split; [done|by eexists].
      * by rewrite (Hout i Hil).
    + intros d Hd. by rewrite lookup_delete_ne.
    + intros i x Hi Hvalid. destruct (decide (i ∈ requests ir)) as [Hil|Hil].
      * rewrite (Hin i Hil) in Hi. by injection Hi as <-.
      * by rewrite <- (Hout i Hil).
Qed.

End InvalidationMore.


Lemma invalidate_request_twice_witness :
  (∃ s', invalidate_request 1 ex_invalidation_state = Some (NULL, s')
       ∧ invalidate_request 1 s' = None)
  ∧ (∃ s', invalidate_request 2 ex_invalidation_state = Some (NULL, s')
         ∧ invalidate_request 2 s' = Some (NULL, ex_invalidation_state)).
Proof.
  split.
  - destruct (invalidate_request_twice ex_invalidation_state 1
                (mkInvalidationRecord [10; 11] 7))
      as (s' & Hrun & Hlive & _).
    + reflexivity.
    + repeat constructor; by eexists.
    + exists s'. split; [exact Hrun|]. apply Hlive. discriminate.
  - destruct (invalidate_request_twice ex_invalidation_state 2
                (mkInvalidationRecord [12] NULL))
      as (s' & Hrun & _ & Hnull).
    + reflexivity.
    + repeat constructor; by eexists.
    + exists s'. split; [exact Hrun|]. apply Hnull. reflexivity.
Defined.

Lemma invalidate_request_keeps_back_references_witness :
  ∃ s', invalidate_request 1 ex_invalidation_state = Some (NULL, s')
      ∧ no_dangling_invalidation s'.
Proof.
  destruct (invalidate_request_keeps_back_references ex_invalidation_state 1
              (mkInvalidationRecord [10; 11] 7))
    as (s' & Hrun & Hnd & _).
  - reflexivity.
  - discriminate.
  - repeat constructor; by eexists.
  - apply (bool_decide_unpack
             (map_Forall (λ (_ : ptr) r,
                invalidation r ≠ NULL →
                is_Some (invalidation_records ex_invalidation_state !! invalidation r))
                (request_objects ex_invalidation_state))).
    vm_compute. exact I.
  - apply (bool_decide_unpack
             (map_Forall (λ (i : ptr) r, invalidation r = 1 → i ∈ [10; 11])
                (request_objects ex_invalidation_state))).
    vm_compute. exact I.
  - exists s'. by split.
Defined.

Lemma invalidate_request_commutes_witness :
  ∃ sa sab sb sba,
    invalidate_request 1 ex_shared_request_state = Some (NULL, sa)
    ∧ invalidate_request 4 sa = Some (NULL, sab)
    ∧ invalidate_request 4 ex_shared_request_state = Some (NULL, sb)
    ∧ invalidate_request 1 sb = Some (NULL, sba)
    ∧ request_objects sab = request_objects sba
    ∧ request_objects sab !! 11 = Some (mkBaseRequestObject false NULL)
    ∧ request_objects sab !! 13 = Some (mkBaseRequestObject true NULL).
Proof.
  destruct (invalidate_request_commutes ex_shared_request_state 1 4
              (mkInvalidationRecord [10; 11] 7) (mkInvalidationRecord [11; 12] 8))
    as (sa & sab & sb & sba & Ha & Hab & Hb & Hba & Heq & _ & Hin & Hout).
  - discriminate.
  - reflexivity.
  - reflexivity.
  - discriminate.
  - discriminate.
  - repeat constructor; by eexists.
  - exists sa, sab, sb, sba. repeat (split; [assumption|]). split.
    + apply Hin. apply (bool_decide_unpack _). vm_compute. exact I.
    + rewrite Hout; [reflexivity|]. apply (bool_decide_unpack _). vm_compute. exact I.
Defined.

Lemma invalidate_request_frame_witness :
  ∃ s', invalidate_request 1 ex_invalidation_state = Some (NULL, s')
      ∧ dom (request_objects s') = dom (request_objects ex_invalidation_state)
      ∧ invalidation_records s' !! 2 = Some (mkInvalidationRecord [12] NULL).
Proof.
  assert (Hrun : ∃ s', invalidate_request 1 ex_invalidation_state = Some (NULL, s')).
  { eexists. vm_compute. reflexivity. }
  destruct Hrun as [s' Hrun].
  destruct (invalidate_request_frame ex_invalidation_state 1 NULL s' Hrun)
    as (_ & _ & _ & _ & _ & Hdom & Hother & _).
  exists s'. split; [exact Hrun|]. split; [exact Hdom|].
  rewrite Hother by discriminate. reflexivity.
Defined.

(** * Further properties of the supplier list and of pre-registration *)

Section RegistryMore.

Context {World : Type}.
Implicit Types (s : State World) (trs : RequestBufferSupplier World)
  (l : list (RequestBufferSupplier World)) (tb : gmap string ThreadBufferMapping)
  (ws : list (string * ThreadBufferMapping)) (m : ThreadBufferMapping).

(** *** The loop over a concatenated supplier list *)

Lemma pre_register_writes_app e n self l1 : ∀ l2 w,
  pre_register_writes e n self (l1 ++ l2) w
  = let r1 := pre_register_writes e n self l1 w in
    let r2 := pre_register_writes e n self l2 r1.2 in
    (r1.1 ++ r2.1, r2.2).
Proof.
  induction l1 as [|trs l1 IH]; intros l2 w.
  - simpl. by destruct (pre_register_writes e n self l2 w).
  - simpl. destruct (factory trs) as [fac|]; [|apply IH].
    case_decide; [apply IH|]. rewrite IH. done.
Qed.

Lemma apply_writes_app tb ws1 ws2 :
  apply_writes tb (ws1 ++ ws2) = apply_writes (apply_writes tb ws1) ws2.
Proof. unfold apply_writes. apply foldl_app. Qed.

Lemma dom_apply_writes ws : ∀ tb,
  dom (apply_writes tb ws) =@{gset string} dom tb ∪ list_to_set ws.*1.
Proof.
  induction ws as [|[k m] ws IH]; intros tb.
  - simpl. by rewrite (right_id_L ∅ (∪)).
  - rewrite apply_writes_cons, IH, dom_insert_L. simpl.
    apply set_eq. intros x. rewrite !elem_of_union. tauto.
Qed.

Lemma pre_register_writes_world e n self l : ∀ w,
  (pre_register_writes e n self l w).2
  = call_factories n (filter (wants_buffer_from e) l) w.
Proof.
  induction l as [|trs l IH]; intros w; [done|].
  simpl. rewrite filter_cons.
  destruct (decide (wants_buffer_from e trs)) as [[[fac Hfac] He]|Hn].
  - rewrite Hfac, decide_False by done. simpl. rewrite IH.
    unfold call_factories. simpl. by rewrite Hfac.
  - destruct (factory trs) as [fac|] eqn:Hfac; [|apply IH].
    case_decide; [apply IH|]. exfalso. apply Hn. split; [by eexists|done].
Qed.

(** Each store is made for a supplier of the list that passes both tests. *)
Lemma pre_register_writes_origin e n self l : ∀ w,
  Forall (λ kv, ∃ trs, trs ∈ l ∧ is_Some (factory trs) ∧ e ≠ name trs
                     ∧ target_thread_name kv.2 = name trs
                     ∧ kv.1 = make_key e (name trs))
    (pre_register_writes e n self l w).1.
Proof.
  induction l as [|trs l IH]; intros w; [constructor|].
  assert (Hweaken : ∀ w', Forall (λ kv, ∃ trs0, trs0 ∈ trs :: l ∧ is_Some (factory trs0)
                                   ∧ e ≠ name trs0
                                   ∧ target_thread_name kv.2 = name trs0
                                   ∧ kv.1 = make_key e (name trs0))
                            (pre_register_writes e n self l w').1).
  { intros w'. eapply Forall_impl; [apply IH|].
    intros kv (trs0 & ? & ?). exists trs0. split; [by apply elem_of_cons; right|done]. }
  simpl. destruct (factory trs) as [fac|] eqn:Hfac; [|apply Hweaken].
  case_decide; [apply Hweaken|]. simpl. constructor; [|apply Hweaken].
  exists trs. simpl. split; [by apply elem_of_cons; left|]. rewrite Hfac.
  split; [by eexists|done].
Qed.

(** Where an entry of the table after the stores comes from. *)
Lemma lookup_apply_writes_cases ws tb k m :
  apply_writes tb ws !! k = Some m →
  (k, m) ∈ ws ∨ ((k ∉ ws.*1) ∧ tb !! k = Some m).
Proof.
  intros Hk. destruct (decide (k ∈ ws.*1)) as [Hin|Hout].
  - destruct (lookup_apply_writes_written ws k Hin) as (m' & Hm' & Hlook).
    rewrite Hlook in Hk. injection Hk as <-. by left.
  - rewrite lookup_apply_writes_other in Hk by done. by right.
Qed.

Lemma string_app_assoc (a b c : string) : (a +:+ b) +:+ c = a +:+ (b +:+ c).
Proof.
  induction a as [|x a IH]; [done|].
  change (String x ((a +:+ b) +:+ c) = String x (a +:+ (b +:+ c))). by rewrite IH.
Qed.

Lemma make_key_cons x (e r : string) :
  make_key (String x e) r = String x (make_key e r).
Proof. done. Qed.

(** *** Registration followed by pre-registration *)

Lemma pre_register_one_more_supplier s e n self role (fac : option Factory) :
  let s1 := pre_register e n self s in
  let s2 := pre_register e n self (register_request_buffer_factory role fac s) in
  let ws := pre_register_writes e n self [mkRequestBufferSupplier role fac] (world s1) in
  thread_buffer_requests s2 = apply_writes (thread_buffer_requests s1) ws.1
  ∧ world s2 = ws.2
  ∧ new_events (register_request_buffer_factory role fac s) s2
    = ReaderLock
        :: (StoreMapping ∘ fst
              <$> (pre_register_writes e n self (request_buffer_suppliers s) (world s)).1
                  ++ ws.1)
        ++ [ReaderUnlock].
Proof.
  intros s1 s2 ws. subst s1 s2 ws.
  rewrite pre_register_new_events, !pre_register_spec. simpl.
  rewrite pre_register_writes_app. simpl. by rewrite apply_writes_app.
Qed.

Lemma nothing_wanted_iff e l :
  filter (wants_buffer_from e) l = []
  ↔ ∀ trs, trs ∈ l → factory trs = None ∨ name trs = e.
Proof.
  split.
  - intros Hnil trs Hin.
    destruct (factory trs) as [fac|] eqn:Hfac; [|by left].
    destruct (decide (e = name trs)) as [->|Hne]; [by right|].
    exfalso. eapply (filter_nil_not_elem_of _ _ trs Hnil); [|done].
    split; [by rewrite Hfac|done].
  - intros Hall. apply elem_of_nil_inv.
    intros trs [[[fac Hfac] Hne] Hin]%list_elem_of_filter.
    destruct (Hall trs Hin) as [Hnone| <-]; [by rewrite Hnone in Hfac|done].
Qed.

(** X6. The lookup by target thread returns the empty vector exactly when
    no stored mapping has that target, in particular on an empty table, and
    it never returns more mappings than the table holds. *)
Theorem get_request_buffers_none_matching s role :
  let ret := (get_request_buffers_for_target_thread role s).1 in
  (ret = [] ↔ ∀ k m, thread_buffer_requests s !! k = Some m → target_thread_name m ≠ role)
  ∧ (thread_buffer_requests s = ∅ → ret = [])
  ∧ (length ret ≤ size (thread_buffer_requests s))%nat.
Proof.
  intros ret. subst ret. rewrite get_request_buffers_result. simpl.
  split; [|split].
  - split.
    + intros Hnil%fmap_nil_inv k m Hk Hm.
      assert (Hin : (k, m) ∈ entries_for role (thread_buffer_requests s)).
      { by apply elem_of_entries_for. }
      rewrite Hnil in Hin. by apply elem_of_nil in Hin.
    + intros Hno.
      assert (entries_for role (thread_buffer_requests s) = []) as ->; [|done].
      apply elem_of_nil_inv. intros [k m] [Hk Hm]%elem_of_entries_for. by eapply Hno.
  - intros ->. unfold entries_for. by rewrite map_to_list_empty.
  - rewrite length_fmap, <- length_map_to_list. apply length_filter.
Qed.

(** X7. Pre-registering after one more supplier was registered is
    pre-registering before it, followed by the new supplier's turn: if the
    new supplier has a factory and another name than the emitter, its
    factory is called last, on the collaborators' state the earlier
    factories left, and its buffer is stored under the emitter's key for
    that name, over whatever was there; otherwise table and collaborators'
    state are those of pre-registering without it. *)
Theorem pre_register_after_register s e n self role (fac : option Factory) :
  let s1 := pre_register e n self s in
  let s2 := pre_register e n self (register_request_buffer_factory role fac s) in
  (∀ f, fac = Some f → e ≠ role →
        thread_buffer_requests s2
        = <[make_key e role := mkThreadBufferMapping self role (f n (world s1)).1]>
            (thread_buffer_requests s1)
        ∧ world s2 = (f n (world s1)).2)
  ∧ (fac = None ∨ e = role →
     thread_buffer_requests s2 = thread_buffer_requests s1 ∧ world s2 = world s1).
Proof.
  intros s1 s2.
  destruct (pre_register_one_more_supplier s e n self role fac) as (Htb & Hw & _).
  fold s1 s2 in Htb, Hw. split.
  - intros f -> Hne. rewrite Htb, Hw. simpl. by rewrite decide_False.
  - intros [-> | ->]; rewrite Htb, Hw; simpl; [done|].
    destruct fac; [|done]. by rewrite decide_True.
Qed.

(** X8. [pre_register] takes and releases the reader lock and does nothing
    else exactly when every supplier lacks a factory or bears the emitter's
    name (for one, when no supplier is registered); the table and the
    collaborators' state are then unchanged: no factory is called. *)
Theorem pre_register_nothing_wanted s e n self :
  let s' := pre_register e n self s in
  (new_events s s' = [ReaderLock; ReaderUnlock]
   ↔ ∀ trs, trs ∈ request_buffer_suppliers s → factory trs = None ∨ name trs = e)
  ∧ ((∀ trs, trs ∈ request_buffer_suppliers s → factory trs = None ∨ name trs = e) →
     thread_buffer_requests s' = thread_buffer_requests s ∧ world s' = world s)
  ∧ (request_buffer_suppliers s = [] →
     thread_buffer_requests s' = thread_buffer_requests s ∧ world s' = world s).
Proof.
  intros s'. subst s'.
  assert (Hnone : (∀ trs, trs ∈ request_buffer_suppliers s → factory trs = None ∨ name trs = e) →
            thread_buffer_requests (pre_register e n self s) = thread_buffer_requests s
            ∧ world (pre_register e n self s) = world s).
  { intros Hall%nothing_wanted_iff. rewrite pre_register_spec. simpl.
    pose proof (pre_register_writes_keys e n self (request_buffer_suppliers s) (world s)) as Hk.
    rewrite Hall in Hk. apply fmap_nil_inv in Hk.
    rewrite pre_register_writes_world, Hall, Hk. done. }
  split; [|split; [exact Hnone|]].
  - rewrite pre_register_new_events, <- nothing_wanted_iff. split.
    + intros H. injection H as H.
      apply (app_inv_tail [ReaderUnlock] _ []) in H.
      rewrite list_fmap_compose in H. apply fmap_nil_inv in H.
      by rewrite pre_register_writes_keys in H; apply fmap_nil_inv in H.
    + intros Hall.
      pose proof (pre_register_writes_keys e n self (request_buffer_suppliers s) (world s)) as Hk.
      rewrite Hall in Hk. apply fmap_nil_inv in Hk. by rewrite Hk.
  - intros Hnil. apply Hnone. intros trs Hin. rewrite Hnil in Hin. by apply elem_of_nil in Hin.
Qed.

(** X9. [pre_register] calls the factories of the suppliers that have one
    and are not named like the emitter, each once, in the order of
    registration, each with the requested number of requests and on the
    collaborators' state left by the previous one; each call is followed by
    one store under the emitter's key for that supplier; no other factory is
    called. *)
Theorem pre_register_calls_factories_in_order s e n self :
  let s' := pre_register e n self s in
  let wanted := filter (wants_buffer_from e) (request_buffer_suppliers s) in
  world s' = call_factories n wanted (world s)
  ∧ new_events s s'
    = ReaderLock :: (StoreMapping ∘ make_key e ∘ name <$> wanted) ++ [ReaderUnlock]
  ∧ wanted `sublist_of` request_buffer_suppliers s
  ∧ (∀ trs, trs ∈ wanted
            ↔ trs ∈ request_buffer_suppliers s ∧ is_Some (factory trs) ∧ name trs ≠ e).
Proof.
  intros s' wanted. subst s' wanted.
  split; [by rewrite pre_register_spec; simpl; rewrite pre_register_writes_world|].
  split; [|split; [apply sublist_filter|]].
  - rewrite pre_register_new_events. do 2 f_equal.
    rewrite !list_fmap_compose.
    rewrite <- (list_fmap_compose name (make_key e)). f_equal.
    apply pre_register_writes_keys.
  - intros trs. rewrite list_elem_of_filter. unfold wants_buffer_from.
    split; [intros [[? ?] ?]|intros (? & ? & ?)]; repeat split; auto.
Qed.

(** X12. Calling [pre_register] again with the same emitter name, from any
    thread and with any size, adds no key: the table has the same keys and
    the same number of entries as after the first call, whose keys are the
    old ones and the emitter's key for each supplier that has a factory and
    another name. *)
Theorem pre_register_again_adds_no_key s e n1 n2 t1 t2 :
  let s1 := pre_register e n1 t1 s in
  let s2 := pre_register e n2 t2 s1 in
  dom (thread_buffer_requests s2) =@{gset string} dom (thread_buffer_requests s1)
  ∧ size (thread_buffer_requests s2) = size (thread_buffer_requests s1)
  ∧ dom (thread_buffer_requests s1)
    =@{gset string}
      dom (thread_buffer_requests s)
      ∪ list_to_set (make_key e ∘ name
                       <$> filter (wants_buffer_from e) (request_buffer_suppliers s)).
Proof.
  intros s1 s2.
  assert (H1 : dom (thread_buffer_requests s1)
               =@{gset string}
                 dom (thread_buffer_requests s)
                 ∪ list_to_set (make_key e ∘ name
                      <$> filter (wants_buffer_from e) (request_buffer_suppliers s))).
  { subst s1. rewrite pre_register_spec. simpl.
    by rewrite dom_apply_writes, pre_register_writes_keys. }
  assert (H2 : dom (thread_buffer_requests s2) =@{gset string} dom (thread_buffer_requests s1)).
  { subst s2. rewrite (pre_register_spec e n2 t2 s1). simpl.
    rewrite dom_apply_writes, pre_register_writes_keys.
    assert (Hsup : request_buffer_suppliers s1 = request_buffer_suppliers s).
    { subst s1. by rewrite pre_register_spec. }
    rewrite Hsup, H1. apply set_eq. intros x. rewrite !elem_of_union. tauto. }
  split; [exact H2|]. split; [|exact H1].
  by rewrite <- !(size_dom (D:=gset string)), H2.
Qed.

(** X14. When a name is registered a second time, pre-registration calls
    the factories of both suppliers but keeps one entry for the name: the
    entry under the emitter's key holds the buffer of the supplier
    registered last, the table has the keys and size it would have without
    the second registration, and one more store to that key is made. *)
Theorem duplicate_supplier_replaces_buffer s e n self trs (f : Factory) :
  trs ∈ request_buffer_suppliers s →
  is_Some (factory trs) →
  name trs ≠ e →
  let role := name trs in
  let key := make_key e role in
  let s1 := pre_register e n self s in
  let sd := register_request_buffer_factory role (Some f) s in
  let s2 := pre_register e n self sd in
  thread_buffer_requests s2 !! key
  = Some (mkThreadBufferMapping self role (f n (world s1)).1)
  ∧ dom (thread_buffer_requests s2) =@{gset string} dom (thread_buffer_requests s1)
  ∧ size (thread_buffer_requests s2) = size (thread_buffer_requests s1)
  ∧ world s2 = (f n (world s1)).2
  ∧ occurrences (StoreMapping key) (new_events sd s2)
    = S (occurrences (StoreMapping key) (new_events s s1)).
Proof.
  intros Hin Hfac Hne role key s1 sd s2.
  destruct (pre_register_one_more_supplier s e n self role (Some f)) as (Htb & Hw & Hev).
  fold s1 sd s2 in Htb, Hw, Hev. simpl in Htb, Hw, Hev.
  rewrite decide_False in Htb, Hw, Hev by done. simpl in Htb, Hw, Hev.
  assert (Hkey : key ∈ dom (thread_buffer_requests s1)).
  { apply elem_of_dom. subst s1. rewrite pre_register_spec. simpl.
    destruct (lookup_apply_writes_written
                (pre_register_writes e n self (request_buffer_suppliers s) (world s)).1 key)
      as (m & _ & Hm).
    - apply elem_of_written_keys. exists trs. by repeat split.
    - rewrite Hm. by eexists. }
  assert (Hdom : dom (thread_buffer_requests s2) =@{gset string} dom (thread_buffer_requests s1)).
  { rewrite Htb. unfold apply_writes. simpl. rewrite dom_insert_L.
    apply set_eq. intros x. rewrite elem_of_union, elem_of_singleton.
    split; [intros [->|?]; done|by right]. }
  split; [rewrite Htb; unfold apply_writes; simpl; by rewrite lookup_insert_eq|].
  split; [exact Hdom|]. split; [by rewrite <- !(size_dom (D:=gset string)), Hdom|].
  split; [exact Hw|].
  rewrite Hev. subst s1. rewrite pre_register_new_events.
  subst key. rewrite fmap_app, !occurrences_cons, !occurrences_app, !occurrences_cons.
  change (StoreMapping ∘ fst <$> [?x]) with [StoreMapping (fst x)].
  rewrite occurrences_cons. simpl. rewrite (decide_True (P := _ = _)) by done.
  assert (Hnil : ∀ x, occurrences x [] = 0%nat) by done. rewrite !Hnil. lia.
Qed.

(** X11. Names containing '/' make keys collide: the key of the emitter
    "e/r1" for the role "r2" is the key of the emitter "e" for the role
    "r1/r2".  So when "e" pre-registers and a supplier named "r1/r2" has a
    factory, the entry under that key becomes a mapping for "r1/r2", and the
    lookup by "r2" does not return what is stored under it. *)
Theorem pre_register_key_collision s e n self (r1 r2 : string) (f : Factory) :
  mkRequestBufferSupplier (r1 +:+ "/" +:+ r2) (Some f) ∈ request_buffer_suppliers s →
  e ≠ r1 +:+ "/" +:+ r2 →
  let s' := pre_register e n self s in
  let k := make_key (e +:+ "/" +:+ r1) r2 in
  k = make_key e (r1 +:+ "/" +:+ r2)
  ∧ ∃ m, thread_buffer_requests s' !! k = Some m
       ∧ emitting_thread m = self
       ∧ target_thread_name m = r1 +:+ "/" +:+ r2
       ∧ m ∉ (get_request_buffers_for_target_thread r2 s').1.
Proof.
  intros Hin Hne s' k.
  assert (Hk : k = make_key e (r1 +:+ "/" +:+ r2)).
  { subst k. unfold make_key. by rewrite !string_app_assoc. }
  split; [exact Hk|].
  assert (Hstored : StoreMapping k ∈ new_events s s').
  { apply stored_key_wanted. eexists. split; [exact Hin|]. simpl.
    split; [by eexists|]. split; [done|exact Hk]. }
  destruct (stored_key_lookup _ _ _ _ _ Hstored) as (m & Hself & Hkey & Hlook).
  assert (Htarget : target_thread_name m = r1 +:+ "/" +:+ r2).
  { rewrite Hk in Hkey. symmetry. by eapply make_key_inj_role. }
  exists m. specialize (Hlook (thread_buffer_requests s)).
  rewrite with_thread_buffer_requests_same in Hlook.
  split; [exact Hlook|]. split; [done|]. split; [done|].
  rewrite get_request_buffers_result. simpl. rewrite list_elem_of_fmap.
  intros ([k' m'] & -> & [_ Hm']%elem_of_entries_for). simpl in *.
  rewrite Htarget in Hm'. apply (f_equal String.length) in Hm'.
  rewrite !string_length_app in Hm'. simpl in Hm'. lia.
Qed.

(** *** An invariant of the table *)

Lemma call_keeps_mappings_targeting_suppliers s s' :
  mappings_target_suppliers s → call s s' →
  mappings_target_suppliers s'
  ∧ request_buffer_suppliers s `prefix_of` request_buffer_suppliers s'.
Proof.
  intros Hinv Hcall. destruct Hcall as [self loop s|data s r s' Hrun|role s|nm fac s|e n self s].
  - done.
  - destruct (invalidate_request_cases _ _ _ _ Hrun)
      as (_ & ir & _ & [[_ ->]|(_ & _ & h & -> & _)]); done.
  - done.
  - split; [|by apply prefix_app_r].
    intros k m Hk. destruct (Hinv k m Hk) as (e & trs & Hin & Hrest).
    exists e, trs. split; [|done]. simpl. apply elem_of_app. by left.
  - rewrite pre_register_spec. simpl. split; [|done].
    intros k m [Hw|[_ Hold]]%lookup_apply_writes_cases; [|by apply Hinv].
    pose proof (pre_register_writes_origin e n self (request_buffer_suppliers s) (world s)) as Ho.
    rewrite Forall_forall in Ho.
    destruct (Ho _ Hw) as (trs & Hin & Hfac & Hne & Htarget & Hkey). simpl in *.
    exists e, trs. by repeat split.
Qed.

(** X13. Starting with an empty table, after any sequence of calls of the
    static member functions every entry of the table targets a currently
    registered supplier that has a factory, sits under the key of an emitter
    of another name and that supplier's name, and the suppliers registered
    at the start are still there, first and in their order. *)
Theorem calls_keep_mappings_targeting_suppliers s0 s :
  thread_buffer_requests s0 = ∅ →
  rtc call s0 s →
  mappings_target_suppliers s
  ∧ request_buffer_suppliers s0 `prefix_of` request_buffer_suppliers s.
Proof.
  intros Hempty Hrun. revert s Hrun. apply rtc_ind_r.
  - split; [|done]. intros k m Hk. by rewrite Hempty, lookup_empty in Hk.
  - intros s1 s2 _ Hcall [Hinv1 Hpre1].
    destruct (call_keeps_mappings_targeting_suppliers _ _ Hinv1 Hcall) as [Hinv2 Hpre2].
    split; [done|]. by etrans.
Qed.

End RegistryMore.

(** X10. When neither emitter name contains '/', equal keys mean equal
    emitter names and equal target names: distinct emitter and role pairs
    never share a key. *)
Theorem make_key_injective_without_slash (e1 e2 r1 r2 : string) :
  contains_char "/"%char e1 = false →
  contains_char "/"%char e2 = false →
  make_key e1 r1 = make_key e2 r2 →
  e1 = e2 ∧ r1 = r2.
Proof.
  revert e2. induction e1 as [|c1 e1 IH]; intros [|c2 e2] H1 H2 Hkey.
  - split; [done|]. by eapply make_key_inj_role.
  - rewrite make_key_cons in Hkey. injection Hkey as Hc _.
    simpl in H2. by rewrite decide_True in H2.
  - rewrite make_key_cons in Hkey. injection Hkey as Hc _.
    simpl in H1. by rewrite decide_True in H1.
  - rewrite !make_key_cons in Hkey. injection Hkey as -> Hkey.
    simpl in H1, H2. case_decide; [done|].
    destruct (IH e2 H1 H2 Hkey) as [-> ->]. done.
Qed.

Lemma make_key_injective_without_slash_witness :
  "workerA" = "workerA" ∧ "ui" = "ui".
Proof.
  apply (make_key_injective_without_slash "workerA" "workerA" "ui" "ui");
    reflexivity.
Defined.

Lemma pre_register_after_register_witness :
  let s := initial_state (World := N) 0 in
  thread_buffer_requests
    (pre_register "workerA" 64 1
       (register_request_buffer_factory "ui" (Some (ex_factory 1000)) s))
  = <["workerA/ui" := mkThreadBufferMapping 1 "ui" 1000]>
      (thread_buffer_requests (pre_register "workerA" 64 1 s))
  ∧ thread_buffer_requests
      (pre_register "workerA" 64 1 (register_request_buffer_factory "audio" None s))
    = thread_buffer_requests (pre_register "workerA" 64 1 s).
Proof.
  intros s. split.
  - destruct (pre_register_after_register s "workerA" 64 1 "ui" (Some (ex_factory 1000)))
      as [Hstore _].
    destruct (Hstore (ex_factory 1000)) as [Htb _]; [reflexivity|discriminate|exact Htb].
  - destruct (pre_register_after_register s "workerA" 64 1 "audio" None) as [_ Hskip].
    destruct Hskip as [Htb _]; [by left|exact Htb].
Defined.

Lemma pre_register_nothing_wanted_witness :
  let s := register_request_buffer_factory "audio" None (initial_state (World := N) 0) in
  thread_buffer_requests (pre_register "workerA" 64 1 s) = thread_buffer_requests s
  ∧ world (pre_register "workerA" 64 1 s) = world s.
Proof.
  intros s.
  destruct (pre_register_nothing_wanted s "workerA" 64 1) as (_ & Hnone & _).
  apply Hnone. intros trs Hin. apply list_elem_of_singleton in Hin as ->. by left.
Defined.

Lemma pre_register_key_collision_witness :
  ∃ m, thread_buffer_requests (pre_register "a" 8 2 ex_slash_state) !! "a/b/c" = Some m
     ∧ target_thread_name m = "b/c"
     ∧ m ∉ (get_request_buffers_for_target_thread "c"
              (pre_register "a" 8 2 ex_slash_state)).1.
Proof.
  destruct (pre_register_key_collision ex_slash_state "a" 8 2 "b" "c" (ex_factory 3000))
    as (_ & m & Hm & _ & Htarget & Hret).
  - apply list_elem_of_further, list_elem_of_here.
  - discriminate.
  - exists m. split; [exact Hm|]. split; [exact Htarget|exact Hret].
Defined.

Lemma calls_keep_mappings_targeting_suppliers_witness :
  mappings_target_suppliers (pre_register "workerA" 64 1 ex_registry_state).
Proof.
  destruct (calls_keep_mappings_targeting_suppliers (initial_state 0)
              (pre_register "workerA" 64 1 ex_registry_state)) as [Hinv _].
  - reflexivity.
  - unfold ex_registry_state.
    eapply rtc_r; [|apply call_pre_register].
    eapply rtc_r; [|apply call_register].
    eapply rtc_r; [|apply call_register].
    eapply rtc_r; [|apply call_register].
    apply rtc_refl.
  - exact Hinv.
Defined.

Lemma duplicate_supplier_replaces_buffer_witness :
  let sd := register_request_buffer_factory "ui" (Some (ex_factory 5000)) ex_registry_state in
  thread_buffer_requests (pre_register "workerA" 64 1 sd) !! "workerA/ui"
  = Some (mkThreadBufferMapping 1 "ui" 5001)
  ∧ size (thread_buffer_requests (pre_register "workerA" 64 1 sd)) = 1%nat
  ∧ world (pre_register "workerA" 64 1 sd) = 2.
Proof.
  intros sd.
  destruct (duplicate_supplier_replaces_buffer ex_registry_state "workerA" 64 1
              (mkRequestBufferSupplier "ui" (Some (ex_factory 1000))) (ex_factory 5000))
    as (Hlook & _ & Hsize & Hworld & _).
  - apply list_elem_of_here.
  - by eexists.
  - discriminate.
  - split; [exact Hlook|]. split; [|exact Hworld].
    etrans; [exact Hsize|]. vm_compute. reflexivity.
Defined.
